(** * Async job orchestration (airbyte_cdk.sources.declarative.async_job)

    A shallow embedding of [job_orchestrator.py]: the [AsyncPartition] bucket
    of jobs and the [AsyncJobOrchestrator] control loop, followed by the
    properties of the specification stated against that embedding. *)

From Stdlib Require Import String List Arith Lia Bool.
From stdpp Require Import base decidable countable list gmap strings.
Import ListNotations.
Open Scope string_scope.
Open Scope list_scope.

(** ** Statuses, jobs, exceptions *)

(** [AsyncJobStatus]: the closed enumeration the orchestrator dispatches on
    ([_KNOWN_JOB_STATUSES]). *)
Inductive AsyncJobStatus := RUNNING | COMPLETED | FAILED | TIMED_OUT.

#[global] Instance AsyncJobStatus_eq_dec : EqDecision AsyncJobStatus.
Proof. solve_decision. Defined.

Definition status_code (s : AsyncJobStatus) : nat :=
  match s with RUNNING => 0 | COMPLETED => 1 | FAILED => 2 | TIMED_OUT => 3 end.

Definition status_of_code (n : nat) : AsyncJobStatus :=
  match n with 0 => RUNNING | 1 => COMPLETED | 2 => FAILED | _ => TIMED_OUT end.

#[global] Instance AsyncJobStatus_countable : Countable AsyncJobStatus.
Proof. apply (inj_countable' status_code status_of_code). by intros []. Defined.

(** A slice is opaque to the orchestrator: it is only handed to the
    repository and interpolated into messages. *)
Definition StreamSlice := string.

(** An [AsyncJob] object.  Python keys the attempt dictionary by object
    identity, which [job_ref] stands for; [api_job_id()] and
    [job_parameters()] are immutable.  The mutable [status()] lives with the
    collaborators (see [Collaborators] below). *)
Record AsyncJob := mkJob {
  job_ref : nat;
  api_job_id : string;
  job_parameters : StreamSlice
}.

#[global] Instance AsyncJob_eq_dec : EqDecision AsyncJob.
Proof. solve_decision. Defined.

Inductive FailureType := system_error | config_error.

(** The exceptions that cross the orchestrator.  [AirbyteTracedException]
    keeps the values interpolated into its message instead of their rendering:
    [status_by_job_id] for the partition failure, the accumulated exceptions
    for the incomplete run.  [RuntimeError] stands for any other exception
    class a collaborator may raise. *)
Inductive Exception :=
| ConcurrentJobLimitReached
| ValueError (msg : string)
| AirbyteTracedException (message : TracedMessage) (failure_type : FailureType)
| RuntimeError (msg : string)
with TracedMessage :=
| JobsNotCompleted (status_by_job_id : list (string * AsyncJobStatus))
| IncompleteRun (internal_message : list Exception).

Definition Result (A : Type) : Type := (Exception + A)%type.

(** ** Python dictionaries with insertion order *)

Section Dict.
Context {K V : Type} `{EqDecision K}.

Fixpoint dict_get (d : list (K * V)) (k : K) : option V :=
  match d with
  | [] => None
  | (k', v) :: d' => if decide (k' = k) then Some v else dict_get d' k
  end.

Fixpoint dict_del (d : list (K * V)) (k : K) : list (K * V) :=
  match d with
  | [] => []
  | (k', v) :: d' => if decide (k' = k) then dict_del d' k else (k', v) :: dict_del d' k
  end.

(** [d[k] = v]: an existing key keeps its position, a new one goes last. *)
Fixpoint dict_set (d : list (K * V)) (k : K) (v : V) : list (K * V) :=
  match d with
  | [] => [(k, v)]
  | (k', v') :: d' => if decide (k' = k) then (k, v) :: d' else (k', v') :: dict_set d' k v
  end.
End Dict.

(** ** AsyncPartition *)

Record AsyncPartition := mkPartition {
  _attempts_per_job : list (AsyncJob * nat);
  _stream_slice : StreamSlice
}.

Definition _MAX_NUMBER_OF_ATTEMPTS : nat := 3.

(** [AsyncPartition.__init__] *)
Definition AsyncPartition_init (jobs : list AsyncJob) (stream_slice : StreamSlice) : AsyncPartition :=
  {| _attempts_per_job := fold_left (fun d job => dict_set d job 1) jobs [];
     _stream_slice := stream_slice |}.

Definition has_reached_max_attempt (p : AsyncPartition) : bool :=
  existsb (fun attempt_count => (_MAX_NUMBER_OF_ATTEMPTS <=? attempt_count)%nat)
          (map snd (_attempts_per_job p)).

(** [replace_job] mutates the partition and may raise: the result pairs the
    outcome with the partition as the call leaves it. *)
Definition replace_job (p : AsyncPartition) (job_to_replace : AsyncJob)
    (new_jobs : list AsyncJob) : Result unit * AsyncPartition :=
  let current_attempt_count := dict_get (_attempts_per_job p) job_to_replace in
  let popped := dict_del (_attempts_per_job p) job_to_replace in
  match current_attempt_count with
  | None =>
      (inl (ValueError "Could not find job to replace"),
       {| _attempts_per_job := popped; _stream_slice := _stream_slice p |})
  | Some current_attempt_count =>
      if (_MAX_NUMBER_OF_ATTEMPTS <=? current_attempt_count)%nat then
        (inl (ValueError ("Max attempt reached for job in partition " ++ _stream_slice p)),
         {| _attempts_per_job := popped; _stream_slice := _stream_slice p |})
      else
        let new_attempt_count := current_attempt_count + 1 in
        (inr tt,
         {| _attempts_per_job :=
              fold_left (fun d job => dict_set d job new_attempt_count) new_jobs popped;
            _stream_slice := _stream_slice p |})
  end.

Definition should_split (p : AsyncPartition) (job : AsyncJob) : bool := false.

Definition jobs (p : AsyncPartition) : list AsyncJob := map fst (_attempts_per_job p).

Definition stream_slice (p : AsyncPartition) : StreamSlice := _stream_slice p.

(** The [status] property; [job_status] is what [job.status()] reads now. *)
Definition status (job_status : AsyncJob -> AsyncJobStatus) (p : AsyncPartition)
    : AsyncJobStatus :=
  let statuses : gset AsyncJobStatus := list_to_set (map job_status (jobs p)) in
  if bool_decide (statuses = {[ COMPLETED ]}) then COMPLETED
  else if bool_decide (FAILED ∈ statuses) then FAILED
  else if bool_decide (TIMED_OUT ∈ statuses) then TIMED_OUT
  else RUNNING.

(** ** Collaborators

    [AsyncJobRepository], [JobTracker] and the status carried by the job
    objects are outside the orchestrator.  They are an interface here: a state
    [W] of the outside world with the operations the orchestrator calls.  Every
    operation that can raise returns a [Result]. *)
Class Collaborators (W : Type) := {
  (** [AsyncJobRepository.start], [abort], [update_jobs_status] *)
  repository_start : StreamSlice -> W -> Result AsyncJob * W;
  repository_abort : AsyncJob -> W -> Result unit * W;
  repository_update_jobs_status : list AsyncJob -> W -> Result unit * W;
  (** [AsyncJob.status] *)
  job_status : W -> AsyncJob -> AsyncJobStatus;
  (** [JobTracker.try_to_get_intent], [add_job], [remove_job] *)
  tracker_try_to_get_intent : W -> Result string * W;
  tracker_add_job : string -> string -> W -> Result unit * W;
  tracker_remove_job : string -> W -> W;
  (** Contract: releasing a slot does not fail; a status is refreshed by the
      repository's status update only, so that aborting a job or releasing a
      slot leaves every status as it was. *)
  abort_keeps_status : forall job w, job_status (snd (repository_abort job w)) = job_status w;
  remove_job_keeps_status : forall job_id w, job_status (tracker_remove_job job_id w) = job_status w
}.

(** The calls made to the collaborators, in order, with their outcome. *)
Inductive Call :=
| CallStart (_slice : StreamSlice) (outcome : Result AsyncJob)
| CallAbort (job : AsyncJob) (outcome : Result unit)
| CallUpdateJobsStatus (running_jobs : list AsyncJob) (outcome : Result unit)
| CallTryToGetIntent (outcome : Result string)
| CallAddJob (id_to_replace job_id : string) (outcome : Result unit)
| CallRemoveJob (job_id : string)
| CallSleep (seconds : nat).

(** ** A state and exception monad *)

Definition M (S A : Type) : Type := S -> Result A * S.

Definition ret {S A : Type} (a : A) : M S A := fun s => (inr a, s).

Definition raise {S A : Type} (e : Exception) : M S A := fun s => (inl e, s).

Definition bind {S A B : Type} (m : M S A) (k : A -> M S B) : M S B :=
  fun s => match m s with
           | (inl e, s') => (inl e, s')
           | (inr a, s') => k a s'
           end.

Definition try_except {S A : Type} (body : M S A) (handler : Exception -> M S A) : M S A :=
  fun s => match body s with
           | (inl e, s') => handler e s'
           | (inr a, s') => (inr a, s')
           end.

Definition get {S : Type} : M S S := fun s => (inr s, s).

Definition modify {S : Type} (f : S -> S) : M S unit := fun s => (inr tt, f s).

Declare Scope py_scope.
Delimit Scope py_scope with py.
Notation "x <- c1 ;; c2" := (bind c1 (fun x => c2))
  (at level 100, c1 at next level, right associativity) : py_scope.
Notation "c1 ;; c2" := (bind c1 (fun _ => c2))
  (at level 100, right associativity) : py_scope.
Open Scope py_scope.

(** [for x in l: body(x)] *)
Fixpoint for_each {S A : Type} (l : list A) (body : A -> M S unit) : M S unit :=
  match l with
  | [] => ret tt
  | x :: l' => body x ;; for_each l' body
  end.

(** ** AsyncJobOrchestrator *)

Definition _WAIT_TIME_BETWEEN_STATUS_UPDATE_IN_SECONDS : nat := 5.

Definition _KNOWN_JOB_STATUSES : gset AsyncJobStatus :=
  {[ COMPLETED; FAILED; RUNNING; TIMED_OUT ]}.

Record AsyncJobOrchestrator (W : Type) := mkOrchestrator {
  (** [_job_repository] and [_job_tracker], with the jobs' statuses *)
  _collaborators : W;
  _slice_iterator : list StreamSlice;
  _running_partitions : list AsyncPartition;
  _exceptions_to_break_on : Exception -> bool;
  _has_started_a_job : bool;
  _has_consumed_every_slice : bool;
  _non_breaking_exceptions : list Exception;
  (** observation: the calls made so far and the partitions yielded so far *)
  calls : list Call;
  yielded : list AsyncPartition
}.
Arguments mkOrchestrator {W}.
Arguments _collaborators {W}.
Arguments _slice_iterator {W}.
Arguments _running_partitions {W}.
Arguments _exceptions_to_break_on {W}.
Arguments _has_started_a_job {W}.
Arguments _has_consumed_every_slice {W}.
Arguments _non_breaking_exceptions {W}.
Arguments calls {W}.
Arguments yielded {W}.

Section Orchestrator.
Context {W : Type} `{Collaborators W}.

Local Abbreviation Self := (AsyncJobOrchestrator W).

Definition set_collaborators (w : W) (o : Self) : Self :=
  mkOrchestrator w (_slice_iterator o) (_running_partitions o) (_exceptions_to_break_on o)
    (_has_started_a_job o) (_has_consumed_every_slice o) (_non_breaking_exceptions o)
    (calls o) (yielded o).

Definition set_slice_iterator (it : list StreamSlice) (o : Self) : Self :=
  mkOrchestrator (_collaborators o) it (_running_partitions o) (_exceptions_to_break_on o)
    (_has_started_a_job o) (_has_consumed_every_slice o) (_non_breaking_exceptions o)
    (calls o) (yielded o).

Definition set_running_partitions (ps : list AsyncPartition) (o : Self) : Self :=
  mkOrchestrator (_collaborators o) (_slice_iterator o) ps (_exceptions_to_break_on o)
    (_has_started_a_job o) (_has_consumed_every_slice o) (_non_breaking_exceptions o)
    (calls o) (yielded o).

Definition set_has_started_a_job (b : bool) (o : Self) : Self :=
  mkOrchestrator (_collaborators o) (_slice_iterator o) (_running_partitions o)
    (_exceptions_to_break_on o) b (_has_consumed_every_slice o)
    (_non_breaking_exceptions o) (calls o) (yielded o).

Definition set_has_consumed_every_slice (b : bool) (o : Self) : Self :=
  mkOrchestrator (_collaborators o) (_slice_iterator o) (_running_partitions o)
    (_exceptions_to_break_on o) (_has_started_a_job o) b
    (_non_breaking_exceptions o) (calls o) (yielded o).

Definition set_non_breaking_exceptions (es : list Exception) (o : Self) : Self :=
  mkOrchestrator (_collaborators o) (_slice_iterator o) (_running_partitions o)
    (_exceptions_to_break_on o) (_has_started_a_job o) (_has_consumed_every_slice o)
    es (calls o) (yielded o).

Definition log_call (c : Call) (o : Self) : Self :=
  mkOrchestrator (_collaborators o) (_slice_iterator o) (_running_partitions o)
    (_exceptions_to_break_on o) (_has_started_a_job o) (_has_consumed_every_slice o)
    (_non_breaking_exceptions o) (calls o ++ [c]) (yielded o).

(** [yield partition]: the partition is handed to the consumer, which is
    taken to resume the generator without touching the collaborators. *)
Definition yield (partition : AsyncPartition) : M Self unit :=
  modify (fun o =>
    mkOrchestrator (_collaborators o) (_slice_iterator o) (_running_partitions o)
      (_exceptions_to_break_on o) (_has_started_a_job o) (_has_consumed_every_slice o)
      (_non_breaking_exceptions o) (calls o) (yielded o ++ [partition])).

(** *** Calls to the collaborators *)

Definition start (_slice : StreamSlice) : M Self AsyncJob := fun o =>
  let '(r, w) := repository_start _slice (_collaborators o) in
  (r, log_call (CallStart _slice r) (set_collaborators w o)).

Definition abort (job : AsyncJob) : M Self unit := fun o =>
  let '(r, w) := repository_abort job (_collaborators o) in
  (r, log_call (CallAbort job r) (set_collaborators w o)).

Definition update_jobs_status (running_jobs : list AsyncJob) : M Self unit := fun o =>
  let '(r, w) := repository_update_jobs_status running_jobs (_collaborators o) in
  (r, log_call (CallUpdateJobsStatus running_jobs r) (set_collaborators w o)).

Definition try_to_get_intent : M Self string := fun o =>
  let '(r, w) := tracker_try_to_get_intent (_collaborators o) in
  (r, log_call (CallTryToGetIntent r) (set_collaborators w o)).

Definition add_job (id_to_replace job_id : string) : M Self unit := fun o =>
  let '(r, w) := tracker_add_job id_to_replace job_id (_collaborators o) in
  (r, log_call (CallAddJob id_to_replace job_id r) (set_collaborators w o)).

Definition remove_job (job_id : string) : M Self unit := fun o =>
  (inr tt, log_call (CallRemoveJob job_id)
             (set_collaborators (tracker_remove_job job_id (_collaborators o)) o)).

Definition sleep (seconds : nat) : M Self unit := modify (log_call (CallSleep seconds)).

(** [job.status()] *)
Definition read_status (job : AsyncJob) : M Self AsyncJobStatus :=
  fun o => (inr (job_status (_collaborators o) job), o).

(** [partition.status] *)
Definition partition_status (partition : AsyncPartition) : M Self AsyncJobStatus :=
  fun o => (inr (status (job_status (_collaborators o)) partition), o).

(** *** [__init__] *)
Definition AsyncJobOrchestrator_init (job_repository_and_tracker : W)
    (slices : list StreamSlice) (exceptions_to_break_on : Exception -> bool)
    : Result Self :=
  if bool_decide (list_to_set [RUNNING; COMPLETED; FAILED; TIMED_OUT] ≠ _KNOWN_JOB_STATUSES)
  then inl (ValueError "An AsyncJobStatus has been either removed or added which means the logic of this class needs to be reviewed. Once the logic has been updated, please update _KNOWN_JOB_STATUSES")
  else inr {| _collaborators := job_repository_and_tracker;
              _slice_iterator := slices;
              _running_partitions := [];
              _exceptions_to_break_on := exceptions_to_break_on;
              _has_started_a_job := false;
              _has_consumed_every_slice := true;
              _non_breaking_exceptions := [];
              calls := [];
              yielded := [] |}.

(** *** [_start_job] *)

(** [if previous_job_id:] holds for a string that is not empty. *)
Definition truthy (previous_job_id : option string) : bool :=
  match previous_job_id with
  | Some id => negb (String.eqb id "")
  | None => false
  end.

Definition id_to_replace_of (previous_job_id : option string) : M Self string :=
  match previous_job_id with
  | Some id => if truthy previous_job_id then ret id else try_to_get_intent
  | None => try_to_get_intent
  end.

Definition _start_job (_slice : StreamSlice) (previous_job_id : option string)
    : M Self AsyncJob :=
  id_to_replace <- id_to_replace_of previous_job_id ;;
  try_except
    (job <- start _slice ;;
     add_job id_to_replace (api_job_id job) ;;
     ret job)
    (fun exception =>
       remove_job id_to_replace ;;
       raise exception).

(** *** [_replace_failed_jobs]

    The partition is an object of [_running_partitions], mutated in place:
    it is addressed by its index in that list. *)
Definition partition_replace_job (i : nat) (job : AsyncJob) (new_jobs : list AsyncJob)
    : M Self unit := fun o =>
  match _running_partitions o !! i with
  | Some partition =>
      let '(r, partition') := replace_job partition job new_jobs in
      (r, set_running_partitions (<[ i := partition' ]> (_running_partitions o)) o)
  | None => (inr tt, o)
  end.

Definition is_failed_status (s : AsyncJobStatus) : bool :=
  match s with FAILED | TIMED_OUT => true | _ => false end.

Definition _replace_failed_jobs (i : nat) : M Self unit :=
  o <- get ;;
  match _running_partitions o !! i with
  | Some partition =>
      let jobs_to_replace :=
        List.filter (fun job => is_failed_status (job_status (_collaborators o) job))
                    (jobs partition) in
      for_each jobs_to_replace (fun job =>
        new_job <- _start_job (job_parameters job) (Some (api_job_id job)) ;;
        partition_replace_job i job [new_job])
  | None => ret tt
  end.
(** *** [_start_jobs]

    The two local variables read by the [except] clause live in a frame next
    to [self]. *)
Record StartJobsFrame := mkFrame {
  self : Self;
  at_least_one_slice_consumed_from_slice_iterator_during_current_iteration : bool;
  _slice : option StreamSlice
}.

Definition on_self {A : Type} (m : M Self A) : M StartJobsFrame A := fun f =>
  let '(r, o) := m (self f) in
  (r, mkFrame o
        (at_least_one_slice_consumed_from_slice_iterator_during_current_iteration f)
        (_slice f)).

Definition set_slice (s : StreamSlice) (f : StartJobsFrame) : StartJobsFrame :=
  mkFrame (self f)
    (at_least_one_slice_consumed_from_slice_iterator_during_current_iteration f) (Some s).

Definition set_at_least_one_slice_consumed (b : bool) (f : StartJobsFrame) : StartJobsFrame :=
  mkFrame (self f) b (_slice f).

(** [for _slice in self._slice_iterator: ... else: ...]; drawing a slice
    leaves the rest in the iterator. *)
Fixpoint admit_slices (slices : list StreamSlice) : M StartJobsFrame unit :=
  match slices with
  | [] => on_self (modify (set_has_consumed_every_slice true))
  | s :: rest =>
      on_self (modify (set_slice_iterator rest)) ;;
      modify (set_slice s) ;;
      modify (set_at_least_one_slice_consumed true) ;;
      job <- on_self (_start_job s None) ;;
      on_self (modify (set_has_started_a_job true)) ;;
      on_self (modify (fun o =>
        set_running_partitions (_running_partitions o ++ [AsyncPartition_init [job] s]) o)) ;;
      admit_slices rest
  end.

Definition start_jobs_body : M StartJobsFrame unit :=
  f <- get ;;
  on_self (for_each (seq 0 (length (_running_partitions (self f)))) _replace_failed_jobs) ;;
  f <- get ;;
  admit_slices (_slice_iterator (self f)).

Definition _start_jobs : M Self unit := fun o =>
  match start_jobs_body (mkFrame o false None) with
  | (inl ConcurrentJobLimitReached, f) =>
      if at_least_one_slice_consumed_from_slice_iterator_during_current_iteration f then
        match _slice f with
        | Some s => (inr tt, set_slice_iterator (s :: _slice_iterator (self f)) (self f))
        | None => (inr tt, self f)
        end
      else (inr tt, self f)
  | (r, f) => (r, self f)
  end.

(** *** Status refresh and pacing *)

Definition jobs_with_status (s : AsyncJobStatus) : M Self (list AsyncJob) :=
  o <- get ;;
  ret (remove_dups
         (List.filter (fun job => bool_decide (job_status (_collaborators o) job = s))
                      (flat_map jobs (_running_partitions o)))).

Definition _get_running_jobs : M Self (list AsyncJob) := jobs_with_status RUNNING.

Definition _get_timeout_jobs : M Self (list AsyncJob) := jobs_with_status TIMED_OUT.

Definition _update_jobs_status : M Self unit :=
  running_jobs <- _get_running_jobs ;;
  match running_jobs with
  | [] => ret tt
  | _ => update_jobs_status running_jobs
  end.

Definition _wait_on_status_update : M Self unit :=
  o <- get ;;
  match _running_partitions o with
  | [] => ret tt
  | _ => sleep _WAIT_TIME_BETWEEN_STATUS_UPDATE_IN_SECONDS
  end.

(** *** Triage *)

(** Only logs. *)
Definition _process_completed_partition (partition : AsyncPartition) : M Self unit := ret tt.

Definition _abort_job (job : AsyncJob) (free_job_allocation : bool) : M Self unit :=
  try_except
    (abort job ;;
     if free_job_allocation then remove_job (api_job_id job) else ret tt)
    (fun exception => ret tt).

Definition _stop_partition (partition : AsyncPartition) : M Self unit :=
  for_each (jobs partition) (fun job =>
    s <- read_status job ;;
    match s with
    | RUNNING | TIMED_OUT => _abort_job job true
    | _ => remove_job (api_job_id job)
    end).

Definition _stop_timed_out_jobs (partition : AsyncPartition) : M Self unit :=
  for_each (jobs partition) (fun job =>
    s <- read_status job ;;
    match s with
    | TIMED_OUT => _abort_job job false
    | _ => ret tt
    end).

Definition _process_partitions_with_errors (partition : AsyncPartition) : M Self unit :=
  o <- get ;;
  let status_by_job_id :=
    fold_left (fun d job => dict_set d (api_job_id job) (job_status (_collaborators o) job))
              (jobs partition) [] in
  raise (AirbyteTracedException (JobsNotCompleted status_by_job_id) system_error).

(** The body of the [for] loop of
    [_process_running_partitions_and_yield_completed_ones], for one partition;
    it returns [current_running_partitions]. *)
Definition triage_partition (partition : AsyncPartition)
    (current_running_partitions : list AsyncPartition) : M Self (list AsyncPartition) :=
  s <- partition_status partition ;;
  current_running_partitions <-
    match s with
    | COMPLETED =>
        _process_completed_partition partition ;;
        yield partition ;;
        ret current_running_partitions
    | RUNNING => ret (current_running_partitions ++ [partition])
    | _ =>
        if has_reached_max_attempt partition then
          _stop_partition partition ;;
          _process_partitions_with_errors partition ;;
          ret current_running_partitions
        else
          _stop_timed_out_jobs partition ;;
          ret (partition :: current_running_partitions)
    end ;;
  for_each (jobs partition) (fun job =>
    s <- read_status job ;;
    match s with
    | COMPLETED => remove_job (api_job_id job)
    | _ => ret tt
    end) ;;
  ret current_running_partitions.

Fixpoint triage_partitions (partitions : list AsyncPartition)
    (current_running_partitions : list AsyncPartition) : M Self (list AsyncPartition) :=
  match partitions with
  | [] => ret current_running_partitions
  | partition :: rest =>
      current_running_partitions <- triage_partition partition current_running_partitions ;;
      triage_partitions rest current_running_partitions
  end.

Definition _process_running_partitions_and_yield_completed_ones : M Self unit :=
  o <- get ;;
  current_running_partitions <- triage_partitions (_running_partitions o) [] ;;
  modify (set_running_partitions current_running_partitions).

(** *** [create_and_get_completed_partitions] *)

Definition _handle_non_breaking_error (exception : Exception) : M Self unit :=
  modify (fun o => set_non_breaking_exceptions (_non_breaking_exceptions o ++ [exception]) o).

Definition _abort_all_running_jobs : M Self unit :=
  running <- _get_running_jobs ;;
  timed_out <- _get_timeout_jobs ;;
  for_each (remove_dups (running ++ timed_out)) abort ;;
  modify (set_running_partitions []).

(** The condition of the [break]. *)
Definition termination_check (o : Self) : bool :=
  (_has_started_a_job o || _has_consumed_every_slice o)
  && bool_decide (_running_partitions o = []).

Inductive LoopControl := Break | Continue.

(** One pass through the body of [while True]. *)
Definition loop_body : M Self LoopControl :=
  try_except _start_jobs
    (fun e =>
       o <- get ;;
       if _exceptions_to_break_on o e then
         _abort_all_running_jobs ;;
         raise e
       else _handle_non_breaking_error e) ;;
  o <- get ;;
  if termination_check o then ret Break
  else
    _update_jobs_status ;;
    _process_running_partitions_and_yield_completed_ones ;;
    _wait_on_status_update ;;
    ret Continue.

(** [while True], cut after [fuel] passes: [None] when the loop is still
    running then. *)
Fixpoint while_true (fuel : nat) : M Self (option unit) :=
  match fuel with
  | 0 => ret None
  | S fuel' =>
      c <- loop_body ;;
      match c with
      | Break => ret (Some tt)
      | Continue => while_true fuel'
      end
  end.

Definition create_and_get_completed_partitions (fuel : nat) : M Self (option unit) :=
  r <- while_true fuel ;;
  match r with
  | None => ret None
  | Some _ =>
      o <- get ;;
      match _non_breaking_exceptions o with
      | [] => ret (Some tt)
      | _ => raise (AirbyteTracedException (IncompleteRun (_non_breaking_exceptions o))
                      config_error)
      end
  end.
End Orchestrator.

(** ** A job tracker and a scripted repository *)

(** Modelled from the spec: the [JobTracker] class ([job_tracker.py] is not
    among the sources).  It bounds the slots held at once: reserving fails
    with the limit-reached condition when the number of outstanding slots
    equals the configured maximum, binding associates a reserved slot with the
    remote job id, releasing frees the slot held under an id. *)
Record JobTracker := mkTracker {
  _limit : nat;
  _jobs : list string;
  _intents : nat
}.

Fixpoint tally (n : nat) : string :=
  match n with
  | 0 => ""
  | S n' => "I" ++ tally n'
  end.

Definition JobTracker_try_to_get_intent (t : JobTracker) : Result string * JobTracker :=
  if (length (_jobs t) =? _limit t)%nat then (inl ConcurrentJobLimitReached, t)
  else
    let intent := ("intent_" ++ tally (_intents t))%string in
    (inr intent, mkTracker (_limit t) (_jobs t ++ [intent]) (S (_intents t))).

Definition JobTracker_add_job (slot job_id : string) (t : JobTracker)
    : Result unit * JobTracker :=
  (inr tt,
   mkTracker (_limit t)
     (map (fun held => if String.eqb held slot then job_id else held) (_jobs t))
     (_intents t)).

Fixpoint release_slot (job_id : string) (held : list string) : list string :=
  match held with
  | [] => []
  | h :: held' => if String.eqb h job_id then held' else h :: release_slot job_id held'
  end.

Definition JobTracker_remove_job (job_id : string) (t : JobTracker) : JobTracker :=
  mkTracker (_limit t) (release_slot job_id (_jobs t)) (_intents t).

(** Modelled from the spec: an [AsyncJobRepository] with its [AsyncJob]
    objects ([repository.py] and [job.py] are not among the sources), run from
    a script: which slices fail to start, which aborts fail, and the status a
    refresh reports for a job.  A job is created RUNNING, under the next free
    identity, and its status changes at a refresh only. *)
Record Remote := mkRemote {
  tracker : JobTracker;
  created : nat;
  statuses : list (nat * AsyncJobStatus);
  start_error : StreamSlice -> option Exception;
  abort_error : AsyncJob -> option Exception;
  refreshed_status : AsyncJob -> AsyncJobStatus
}.

Definition set_tracker (t : JobTracker) (w : Remote) : Remote :=
  mkRemote t (created w) (statuses w) (start_error w) (abort_error w) (refreshed_status w).

Definition Remote_start (_slice : StreamSlice) (w : Remote) : Result AsyncJob * Remote :=
  match start_error w _slice with
  | Some e => (inl e, w)
  | None =>
      (inr (mkJob (created w) ("job_" ++ tally (created w)) _slice),
       mkRemote (tracker w) (S (created w)) (statuses w) (start_error w) (abort_error w)
         (refreshed_status w))
  end.

Definition Remote_abort (job : AsyncJob) (w : Remote) : Result unit * Remote :=
  match abort_error w job with
  | Some e => (inl e, w)
  | None => (inr tt, w)
  end.

Definition Remote_update_jobs_status (running_jobs : list AsyncJob) (w : Remote)
    : Result unit * Remote :=
  (inr tt,
   mkRemote (tracker w) (created w)
     (fold_left (fun d job => dict_set d (job_ref job) (refreshed_status w job))
                running_jobs (statuses w))
     (start_error w) (abort_error w) (refreshed_status w)).

Definition Remote_job_status (w : Remote) (job : AsyncJob) : AsyncJobStatus :=
  match dict_get (statuses w) (job_ref job) with
  | Some s => s
  | None => RUNNING
  end.

#[global, refine] Instance Remote_collaborators : Collaborators Remote := {|
  repository_start := Remote_start;
  repository_abort := Remote_abort;
  repository_update_jobs_status := Remote_update_jobs_status;
  job_status := Remote_job_status;
  tracker_try_to_get_intent := fun w =>
    let '(r, t) := JobTracker_try_to_get_intent (tracker w) in (r, set_tracker t w);
  tracker_add_job := fun slot job_id w =>
    let '(r, t) := JobTracker_add_job slot job_id (tracker w) in (r, set_tracker t w);
  tracker_remove_job := fun job_id w => set_tracker (JobTracker_remove_job job_id (tracker w)) w
|}.
Proof.
  - intros job w. unfold Remote_abort. destruct (abort_error w job); reflexivity.
  - intros job_id w. reflexivity.
Defined.

(** A remote where nothing fails and every refresh reports [verdict]. *)
Definition remote (limit : nat) (held : list string)
    (verdict : AsyncJob -> AsyncJobStatus) : Remote :=
  mkRemote (mkTracker limit held 0) 0 [] (fun _ => None) (fun _ => None) verdict.

(** The orchestrator as [__init__] leaves it ([__init__] does not raise: the
    known statuses are those of the enumeration). *)
Definition orchestrator {W : Type} `{Collaborators W} (w : W) (slices : list StreamSlice)
    (exceptions_to_break_on : Exception -> bool) : AsyncJobOrchestrator W :=
  match AsyncJobOrchestrator_init w slices exceptions_to_break_on with
  | inr o => o
  | inl _ => mkOrchestrator w slices [] exceptions_to_break_on false true [] [] []
  end.

(** ** Vocabulary of the properties *)

(** The derivation in the words of the specification: first match wins. *)
Definition status_by_priority (job_status : AsyncJob -> AsyncJobStatus) (p : AsyncPartition)
    : AsyncJobStatus :=
  if bool_decide (Forall (fun job => job_status job = COMPLETED) (jobs p)) then COMPLETED
  else if bool_decide (Exists (fun job => job_status job = FAILED) (jobs p)) then FAILED
  else if bool_decide (Exists (fun job => job_status job = TIMED_OUT) (jobs p)) then TIMED_OUT
  else RUNNING.


(** The slot [_start_job] works with: the previous job's id when there is
    one, the intent it has just reserved otherwise; [acquisition] is the call
    this took. *)
Definition slot_in_use (previous_job_id : option string) (acquisition : list Call)
    (id : string) : Prop :=
  (truthy previous_job_id = true /\ previous_job_id = Some id /\ acquisition = [])
  \/ (truthy previous_job_id = false /\ acquisition = [CallTryToGetIntent (inr id)]).


(** [o'] is [o] after the calls [cs]: nothing of the orchestrator itself has
    changed, the collaborators are as the calls left them. *)
Definition only_calls_made {W : Type} (o o' : AsyncJobOrchestrator W) (cs : list Call) : Prop :=
  o' = mkOrchestrator (_collaborators o') (_slice_iterator o) (_running_partitions o)
         (_exceptions_to_break_on o) (_has_started_a_job o) (_has_consumed_every_slice o)
         (_non_breaking_exceptions o) (calls o ++ cs) (yielded o).

(** What [_stop_partition] does with a job of status [s]: a job that is
    RUNNING or TIMED_OUT is aborted, and its slot is released when the abort
    went through; the slot of any other job is released. *)
Definition stop_calls (s : AsyncJobStatus) (job : AsyncJob) (cs : list Call) : Prop :=
  match s with
  | RUNNING | TIMED_OUT =>
      cs = [CallAbort job (inr tt); CallRemoveJob (api_job_id job)]
      \/ exists e, cs = [CallAbort job (inl e)]
  | COMPLETED | FAILED => cs = [CallRemoveJob (api_job_id job)]
  end.

(** What [_stop_timed_out_jobs] does with a job of status [s]. *)
Definition stop_timed_out_calls (s : AsyncJobStatus) (job : AsyncJob) (cs : list Call) : Prop :=
  match s with
  | TIMED_OUT => exists outcome, cs = [CallAbort job outcome]
  | _ => cs = []
  end.

(** The slots released at the end of the triage of a partition. *)
Definition release_completed_calls (job_status : AsyncJob -> AsyncJobStatus)
    (partition : AsyncPartition) : list Call :=
  flat_map (fun job => match job_status job with
                       | COMPLETED => [CallRemoveJob (api_job_id job)]
                       | _ => []
                       end) (jobs partition).

(** [status_by_job_id] of [_process_partitions_with_errors]. *)
Definition status_by_job_id (job_status : AsyncJob -> AsyncJobStatus)
    (partition : AsyncPartition) : list (string * AsyncJobStatus) :=
  fold_left (fun d job => dict_set d (api_job_id job) (job_status job)) (jobs partition) [].


(** The calls of a retry pass over a partition: each job to replace is
    started again with its parameters and the new job is bound to the slot
    held under the replaced job's remote id. *)
Fixpoint retry_calls (jobs_to_replace new_jobs : list AsyncJob) : list Call :=
  match jobs_to_replace, new_jobs with
  | job :: jobs_to_replace', new_job :: new_jobs' =>
      CallStart (job_parameters job) (inr new_job)
      :: CallAddJob (api_job_id job) (api_job_id new_job) (inr tt)
      :: retry_calls jobs_to_replace' new_jobs'
  | _, _ => []
  end.

(** The jobs [_replace_failed_jobs] replaces. *)
Definition jobs_to_replace (job_status : AsyncJob -> AsyncJobStatus)
    (partition : AsyncPartition) : list AsyncJob :=
  List.filter (fun job => is_failed_status (job_status job)) (jobs partition).


(** The worlds in [reliable] are worlds where the remote start and the
    binding go through, where a started job is a new object (none of the jobs
    in [known]), and which these two operations do not leave. *)
Definition starts_new_jobs {W : Type} `{Collaborators W} (reliable : W -> Prop)
    (known : list AsyncJob) : Prop :=
  forall w, reliable w ->
    (forall _slice, exists job,
        fst (repository_start _slice w) = inr job
        /\ ~ In job known
        /\ reliable (snd (repository_start _slice w)))
    /\ (forall id_to_replace job_id,
          fst (tracker_add_job id_to_replace job_id w) = inr tt
          /\ reliable (snd (tracker_add_job id_to_replace job_id w))).


(** A scripted remote in which no start fails and at least [n] jobs have been
    created. *)
Definition reliable_remote (n : nat) (w : Remote) : Prop :=
  (forall _slice, start_error w _slice = None) /\ n <= created w.

(** ** Sample states *)

(** The first job the scripted remote creates, for the slice "s1". *)
Definition first_job : AsyncJob := mkJob 0 "job_" "s1".

(** The scripted remote after it has created [first_job], which holds the
    one slot of the tracker and has status [s] (as every later refresh will
    report). *)
Definition remote_after_first_job (s : AsyncJobStatus) : Remote :=
  mkRemote (mkTracker 1 ["job_"] 1) 1 [(0, s)] (fun _ => None) (fun _ => None) (fun _ => s).

(** An orchestrator tracking one partition, on [remote_after_first_job]. *)
Definition tracking (s : AsyncJobStatus) (partition : AsyncPartition)
    : AsyncJobOrchestrator Remote :=
  mkOrchestrator (remote_after_first_job s) [] [partition] (fun _ => false) true true [] [] [].


(** The slices for which a job has been started, read off the calls. *)
Definition started_slices (cs : list Call) : list StreamSlice :=
  flat_map (fun c => match c with
                     | CallStart _slice (inr _) => [_slice]
                     | _ => []
                     end) cs.

(** A scripted remote whose tracker has one slot, held by a job of another
    stream. *)
Definition remote_without_free_slot : Remote :=
  remote 1 ["job of another stream"] (fun _ => COMPLETED).

(** A scripted remote where the start fails for the slice "s2" and every
    abort fails. *)
Definition remote_failing_abort : Remote :=
  mkRemote (mkTracker 2 [] 0) 0 []
    (fun _slice => if String.eqb _slice "s2" then Some (ValueError "start failed") else None)
    (fun _ => Some (RuntimeError "abort failed"))
    (fun _ => RUNNING).

Definition break_on_ValueError (e : Exception) : bool :=
  match e with
  | ValueError _ => true
  | _ => false
  end.


(** [o'] has the iterator of [o] and tracks partitions for the same slices,
    in the same order. *)
Definition keeps_slices {W : Type} (o o' : AsyncJobOrchestrator W) : Prop :=
  _slice_iterator o' = _slice_iterator o
  /\ map stream_slice (_running_partitions o') = map stream_slice (_running_partitions o).

(** Whatever its outcome, [m] leaves the slices where they are. *)
Definition leaves_slices {W A : Type} (m : M (AsyncJobOrchestrator W) A) : Prop :=
  forall o, keeps_slices o (snd (m o)).


(** A partition as [__init__] and [replace_job] keep it: no job is twice in
    the attempt mapping and every attempt count is between 1 and the
    maximum. *)
Definition well_formed (p : AsyncPartition) : Prop :=
  NoDup (jobs p)
  /\ Forall (fun attempt_count => 1 <= attempt_count <= _MAX_NUMBER_OF_ATTEMPTS)
            (map snd (_attempts_per_job p)).


(** What a run never undoes: from [o] to [o'] the two flags, once set, are
    still set, the exceptions to break on are the same, and the exceptions
    recorded, the calls made and the partitions yielded have only been added
    to. *)
Definition grows {W : Type} (o o' : AsyncJobOrchestrator W) : Prop :=
  (_has_started_a_job o = true -> _has_started_a_job o' = true)
  /\ (_has_consumed_every_slice o = true -> _has_consumed_every_slice o' = true)
  /\ _exceptions_to_break_on o' = _exceptions_to_break_on o
  /\ (exists es, _non_breaking_exceptions o' = _non_breaking_exceptions o ++ es)
  /\ (exists cs, calls o' = calls o ++ cs)
  /\ (exists ps, yielded o' = yielded o ++ ps).

(** [m] relates every state to the state it leaves, seen through [view]. *)
Definition respects {W S A : Type} (R : AsyncJobOrchestrator W -> AsyncJobOrchestrator W -> Prop)
    (view : S -> AsyncJobOrchestrator W) (m : M S A) : Prop :=
  forall s, R (view s) (view (snd (m s))).


(** [o'] is [o] after the calls [cs] and the yield of the partitions [ps]:
    nothing else of the orchestrator has changed. *)
Definition made_calls_and_yielded {W : Type} (o o' : AsyncJobOrchestrator W)
    (cs : list Call) (ps : list AsyncPartition) : Prop :=
  o' = mkOrchestrator (_collaborators o') (_slice_iterator o) (_running_partitions o)
         (_exceptions_to_break_on o) (_has_started_a_job o) (_has_consumed_every_slice o)
         (_non_breaking_exceptions o) (calls o ++ cs) (yielded o ++ ps).

(** The four ways the triage treats a partition, given the statuses. *)
Definition is_completed (job_status : AsyncJob -> AsyncJobStatus) (p : AsyncPartition) : bool :=
  bool_decide (status job_status p = COMPLETED).

Definition is_running (job_status : AsyncJob -> AsyncJobStatus) (p : AsyncPartition) : bool :=
  bool_decide (status job_status p = RUNNING).

Definition is_exhausted (job_status : AsyncJob -> AsyncJobStatus) (p : AsyncPartition) : bool :=
  negb (is_completed job_status p) && negb (is_running job_status p)
  && has_reached_max_attempt p.

Definition is_retriable (job_status : AsyncJob -> AsyncJobStatus) (p : AsyncPartition) : bool :=
  negb (is_completed job_status p) && negb (is_running job_status p)
  && negb (has_reached_max_attempt p).








(** ** [fetch_records]

    The repository's [fetch_records] and [delete] form an interface of their
    own.  The repository's [fetch_records] is a generator: it hands over some
    records, then ends or raises.  [fetch_records] of the orchestrator is
    drained by its consumer; what it produces is the sequence of the records
    yielded and of the deletions that went through, with the outcome. *)
Class RecordRepository (W Mapping : Type) := {
  repository_fetch_records : AsyncJob -> W -> list Mapping * Result unit * W;
  repository_delete : AsyncJob -> W -> Result unit * W
}.

Inductive FetchEvent (Mapping : Type) :=
| Fetched (record : Mapping)
| Deleted (job : AsyncJob).
Arguments Fetched {Mapping} record.
Arguments Deleted {Mapping} job.

Fixpoint fetch_records_of_jobs {W Mapping : Type} `{RecordRepository W Mapping}
    (job_list : list AsyncJob) (w : W) : list (FetchEvent Mapping) * Result unit * W :=
  match job_list with
  | [] => ([], inr tt, w)
  | job :: rest =>
      match repository_fetch_records job w with
      | (records, inl e, w1) => (map Fetched records, inl e, w1)
      | (records, inr _, w1) =>
          match repository_delete job w1 with
          | (inl e, w2) => (map Fetched records, inl e, w2)
          | (inr _, w2) =>
              let '(events, r, w') := fetch_records_of_jobs rest w2 in
              (map Fetched records ++ Deleted job :: events, r, w')
          end
      end
  end.

Definition fetch_records {W Mapping : Type} `{RecordRepository W Mapping}
    (partition : AsyncPartition) (w : W) : list (FetchEvent Mapping) * Result unit * W :=
  fetch_records_of_jobs (jobs partition) w.

(** The events of a job whose records were fetched and which was deleted. *)
Definition fetched_and_deleted {Mapping : Type} (done : AsyncJob * list Mapping)
    : list (FetchEvent Mapping) :=
  map Fetched (snd done) ++ [Deleted (fst done)].


(** What a logged call says of the collaborators: made in the state [w], the
    operation had the outcome logged and left the state [w']. *)
Definition call_effect {W : Type} `{Collaborators W} (c : Call) (w w' : W) : Prop :=
  match c with
  | CallStart _slice outcome => repository_start _slice w = (outcome, w')
  | CallAbort job outcome => repository_abort job w = (outcome, w')
  | CallUpdateJobsStatus running_jobs outcome =>
      repository_update_jobs_status running_jobs w = (outcome, w')
  | CallTryToGetIntent outcome => tracker_try_to_get_intent w = (outcome, w')
  | CallAddJob id_to_replace job_id outcome =>
      tracker_add_job id_to_replace job_id w = (outcome, w')
  | CallRemoveJob job_id => w' = tracker_remove_job job_id w
  | CallSleep _ => w' = w
  end.

(** The calls [cs], made one after the other from [w], had the outcomes
    logged and left [w']. *)
Fixpoint calls_effect {W : Type} `{Collaborators W} (cs : list Call) (w w' : W) : Prop :=
  match cs with
  | [] => w' = w
  | c :: cs' => exists w1, call_effect c w w1 /\ calls_effect cs' w1 w'
  end.

(** [o'] is [o] after the calls [cs] were made to the collaborators: the
    collaborators of [o'] are what these calls left, with the outcomes logged,
    and nothing of the orchestrator itself has changed. *)
Definition made_calls {W : Type} `{Collaborators W} (o o' : AsyncJobOrchestrator W)
    (cs : list Call) : Prop :=
  only_calls_made o o' cs /\ calls_effect cs (_collaborators o) (_collaborators o').

(** From [o] to [o'] the log has grown by the calls that took the
    collaborators of [o] to those of [o']. *)
Definition faithful_log {W : Type} `{Collaborators W} (o o' : AsyncJobOrchestrator W) : Prop :=
  exists cs, calls o' = calls o ++ cs
             /\ calls_effect cs (_collaborators o) (_collaborators o').


(** [done] is what the repository did for the jobs fetched and deleted, one
    after the other from [w], leaving [w']: the fetch of each job handed over
    its records and ended normally, and its deletion went through. *)
Fixpoint fetched_through {W Mapping : Type} `{RecordRepository W Mapping}
    (done : list (AsyncJob * list Mapping)) (w w' : W) : Prop :=
  match done with
  | [] => w' = w
  | (job, records) :: done' =>
      exists w1 w2,
        repository_fetch_records job w = (records, inr tt, w1)
        /\ repository_delete job w1 = (inr tt, w2)
        /\ fetched_through done' w2 w'
  end.

(** * Properties *)

(** ** Dictionaries *)

Section DictFacts.
Context {K V : Type} `{EqDecision K}.
Implicit Types (d : list (K * V)) (k : K) (v : V).

Lemma dict_get_None d k : dict_get d k = None <-> ~ In k (map fst d).
Proof.
  induction d as [|[k' v'] d IH]; simpl.
  - tauto.
  - destruct (decide (k' = k)) as [->|Hne].
    + split; [discriminate | intros Hn; exfalso; apply Hn; now left].
    + rewrite IH. split; [intros Hn [Heq|Hin]; [congruence | tauto] | tauto].
Qed.

Lemma dict_get_Some_In d k v : dict_get d k = Some v -> In k (map fst d).
Proof.
  intros Hget. destruct (in_dec (fun a b => decide (a = b)) k (map fst d)) as [Hin|Hn]; [exact Hin|].
  apply dict_get_None in Hn. congruence.
Qed.

Lemma dict_get_In d k v : dict_get d k = Some v -> In v (map snd d).
Proof.
  induction d as [|[k' v'] d IH]; simpl; [discriminate|].
  destruct (decide (k' = k)); [intros [= ->]; now left | intros Hg; right; auto].
Qed.

Lemma dict_del_keys d k k' : In k' (map fst (dict_del d k)) <-> In k' (map fst d) /\ k' <> k.
Proof.
  induction d as [|[k0 v0] d IH]; simpl.
  - tauto.
  - destruct (decide (k0 = k)) as [->|Hne]; simpl; rewrite IH.
    + split; [tauto | intros [[Heq|Hin] Hn]; [congruence | tauto]].
    + split; [intros [Heq|[Hin Hn]]; [subst; tauto | tauto] | tauto].
Qed.

Lemma dict_get_del_eq d k : dict_get (dict_del d k) k = None.
Proof. apply dict_get_None. rewrite dict_del_keys. tauto. Qed.

Lemma dict_get_del_ne d k k' : k' <> k -> dict_get (dict_del d k) k' = dict_get d k'.
Proof.
  intros Hne. induction d as [|[k0 v0] d IH]; simpl; [reflexivity|].
  destruct (decide (k0 = k)) as [->|Hk]; simpl.
  - destruct (decide (k = k')); [congruence | exact IH].
  - destruct (decide (k0 = k')); [reflexivity | exact IH].
Qed.

Lemma dict_get_set_eq d k v : dict_get (dict_set d k v) k = Some v.
Proof.
  induction d as [|[k0 v0] d IH]; simpl.
  - destruct (decide (k = k)); congruence.
  - destruct (decide (k0 = k)) as [->|Hk]; simpl.
    + destruct (decide (k = k)); congruence.
    + destruct (decide (k0 = k)); [congruence | exact IH].
Qed.

Lemma dict_get_set_ne d k k' v : k' <> k -> dict_get (dict_set d k v) k' = dict_get d k'.
Proof.
  intros Hne. induction d as [|[k0 v0] d IH]; simpl.
  - destruct (decide (k = k')); congruence.
  - destruct (decide (k0 = k)) as [->|Hk]; simpl.
    + destruct (decide (k = k')); congruence.
    + destruct (decide (k0 = k')); [reflexivity | exact IH].
Qed.

Lemma dict_get_set_all d (ks : list K) k v :
  dict_get (fold_left (fun d k => dict_set d k v) ks d) k
  = if in_dec (fun a b => decide (a = b)) k ks then Some v else dict_get d k.
Proof.
  revert d. induction ks as [|k0 ks IH]; intros d; simpl; [reflexivity|].
  rewrite IH. destruct (in_dec _ k ks) as [Hin|Hn].
  - destruct (decide (k0 = k)); reflexivity.
  - destruct (decide (k0 = k)) as [->|Hk].
    + apply dict_get_set_eq.
    + apply dict_get_set_ne. congruence.
Qed.
End DictFacts.

(** ** AsyncPartition *)

Lemma elem_of_statuses (job_status : AsyncJob -> AsyncJobStatus) (l : list AsyncJob) s :
  s ∈ (list_to_set (map job_status l) : gset AsyncJobStatus)
  <-> Exists (fun job => job_status job = s) l.
Proof.
  induction l as [|job l IH]; simpl.
  - rewrite Exists_nil. set_solver.
  - rewrite Exists_cons, <- IH, elem_of_union, elem_of_singleton.
    split; (intros [Heq|Hin]; [left; congruence | right; exact Hin]).
Qed.

Lemma statuses_all_completed (job_status : AsyncJob -> AsyncJobStatus) (l : list AsyncJob) :
  (list_to_set (map job_status l) : gset AsyncJobStatus) = {[ COMPLETED ]}
  <-> l <> [] /\ Forall (fun job => job_status job = COMPLETED) l.
Proof.
  split.
  - intros Heq. split.
    + intros ->. simpl in Heq. set_solver.
    + apply Forall_forall. intros job Hin.
      assert (Hs : job_status job ∈ (list_to_set (map job_status l) : gset AsyncJobStatus)).
      { apply elem_of_statuses, Exists_exists. exists job. split; [exact Hin | reflexivity]. }
      rewrite Heq in Hs. set_solver.
  - intros [Hne Hall]. apply set_eq. intros s.
    rewrite elem_of_statuses, Exists_exists, elem_of_singleton. split.
    + intros (job & Hin & <-). rewrite Forall_forall in Hall. auto.
    + intros ->. destruct l as [|job l]; [congruence|].
      exists job. split; [now left | exact (Forall_inv Hall)].
Qed.

(** C3.  For a partition with at least one job, the [status] property is the
    priority derivation: COMPLETED when every job is COMPLETED, otherwise
    FAILED when some job is FAILED, otherwise TIMED_OUT when some job is
    TIMED_OUT, otherwise RUNNING; and it is COMPLETED exactly when every job
    is COMPLETED. *)
Theorem status_follows_priority_order (job_status : AsyncJob -> AsyncJobStatus)
    (p : AsyncPartition) :
  jobs p <> [] ->
  status job_status p = status_by_priority job_status p
  /\ (status job_status p = COMPLETED
      <-> Forall (fun job => job_status job = COMPLETED) (jobs p)).
Proof.
  intros Hne.
  assert (Hc : (list_to_set (map job_status (jobs p)) : gset AsyncJobStatus) = {[ COMPLETED ]}
               <-> Forall (fun job => job_status job = COMPLETED) (jobs p)).
  { rewrite statuses_all_completed. tauto. }
  assert (Hstatus : status job_status p = status_by_priority job_status p).
  { unfold status, status_by_priority.
    rewrite (bool_decide_ext _ _ Hc).
    rewrite (bool_decide_ext _ _ (elem_of_statuses job_status (jobs p) FAILED)).
    rewrite (bool_decide_ext _ _ (elem_of_statuses job_status (jobs p) TIMED_OUT)).
    reflexivity. }
  split; [exact Hstatus|].
  rewrite Hstatus. unfold status_by_priority.
  repeat case_bool_decide; split; intros; try discriminate; tauto.
Qed.

Lemma status_follows_priority_order_witness :
  let p := AsyncPartition_init [mkJob 0 "a" "s"; mkJob 1 "b" "s"] "s" in
  let st := fun job => if (job_ref job =? 0)%nat then TIMED_OUT else FAILED in
  jobs p <> [] /\ status st p = FAILED /\ status_by_priority st p = FAILED.
Proof.
  intros p st.
  assert (Hne : jobs p <> []) by (vm_compute; discriminate).
  destruct (status_follows_priority_order st p Hne) as [Heq _].
  split; [exact Hne|]. split; [|rewrite <- Heq]; vm_compute; reflexivity.
Defined.

(** C10.  A partition without jobs is RUNNING: the set of statuses is empty,
    which is not the singleton of COMPLETED, and holds neither FAILED nor
    TIMED_OUT. *)
Theorem status_of_empty_partition (job_status : AsyncJob -> AsyncJobStatus)
    (p : AsyncPartition) :
  jobs p = [] ->
  (list_to_set (map job_status (jobs p)) : gset AsyncJobStatus) = ∅
  /\ status job_status p = RUNNING
  /\ status job_status p <> COMPLETED.
Proof.
  intros Hempty. unfold status. rewrite Hempty. simpl.
  split; [reflexivity|].
  rewrite bool_decide_eq_false_2 by set_solver.
  rewrite bool_decide_eq_false_2 by set_solver.
  rewrite bool_decide_eq_false_2 by set_solver.
  split; [reflexivity | discriminate].
Qed.

Lemma status_of_empty_partition_witness :
  status (fun _ => COMPLETED) (AsyncPartition_init [] "s") = RUNNING.
Proof.
  apply (status_of_empty_partition (fun _ => COMPLETED) (AsyncPartition_init [] "s")).
  reflexivity.
Defined.

Lemma jobs_attempt (p : AsyncPartition) (job : AsyncJob) :
  In job (jobs p) <-> exists c, dict_get (_attempts_per_job p) job = Some c.
Proof.
  unfold jobs. split.
  - intros Hin. destruct (dict_get (_attempts_per_job p) job) as [c|] eqn:Hget; [eauto|].
    apply dict_get_None in Hget. contradiction.
  - intros [c Hget]. eapply dict_get_Some_In, Hget.
Qed.

(** C6.  [replace_job] raises exactly when the job is not in the partition or
    its attempt count has reached [_MAX_NUMBER_OF_ATTEMPTS] = 3.  When it does
    not raise, the replaced job has been taken out of the attempt mapping (it
    is a job of the partition afterwards only if it is itself one of the
    replacements), every replacement job is recorded with the replaced job's
    count plus one, and the other jobs keep their count. *)
Theorem replace_job_raises_iff_absent_or_max (p : AsyncPartition) (job_to_replace : AsyncJob)
    (new_jobs : list AsyncJob) :
  _MAX_NUMBER_OF_ATTEMPTS = 3
  /\ ((exists e, fst (replace_job p job_to_replace new_jobs) = inl e)
      <-> (~ In job_to_replace (jobs p)
           \/ exists c, dict_get (_attempts_per_job p) job_to_replace = Some c /\ 3 <= c))
  /\ (fst (replace_job p job_to_replace new_jobs) = inr tt ->
      exists c,
        dict_get (_attempts_per_job p) job_to_replace = Some c
        /\ (forall job, In job new_jobs ->
              dict_get (_attempts_per_job (snd (replace_job p job_to_replace new_jobs))) job
              = Some (c + 1))
        /\ (~ In job_to_replace new_jobs ->
              ~ In job_to_replace (jobs (snd (replace_job p job_to_replace new_jobs))))
        /\ (forall job, job <> job_to_replace -> ~ In job new_jobs ->
              dict_get (_attempts_per_job (snd (replace_job p job_to_replace new_jobs))) job
              = dict_get (_attempts_per_job p) job)).
Proof.
  split; [reflexivity|].
  unfold replace_job, _MAX_NUMBER_OF_ATTEMPTS.
  destruct (dict_get (_attempts_per_job p) job_to_replace) as [c|] eqn:Hget.
  - destruct (Nat.leb_spec 3 c) as [Hmax|Hlt]; simpl.
    + split.
      * split; [intros _; right; exists c; split; [reflexivity | exact Hmax] | eauto].
      * discriminate.
    + split.
      * split; [intros [e He]; discriminate|].
        intros [Habs|(c' & [= <-] & Hc')]; [|lia].
        exfalso. apply Habs. apply jobs_attempt. eauto.
      * intros _. exists c. split; [reflexivity|]. split; [|split].
        -- intros job Hin. rewrite dict_get_set_all.
           destruct (in_dec _ job new_jobs); [reflexivity | contradiction].
        -- intros Hfresh Hin. apply jobs_attempt in Hin as [c' Hc']. simpl in Hc'.
           rewrite dict_get_set_all in Hc'.
           destruct (in_dec _ job_to_replace new_jobs); [contradiction|].
           rewrite dict_get_del_eq in Hc'. discriminate.
        -- intros job Hne Hfresh. rewrite dict_get_set_all.
           destruct (in_dec _ job new_jobs); [contradiction|].
           apply dict_get_del_ne. exact Hne.
  - simpl. split.
    + split; [intros _; left | eauto].
      intros Hin. apply jobs_attempt in Hin as [c Hc]. congruence.
    + discriminate.
Qed.

(** C9.  When [replace_job] rejects a job whose attempt count has reached
    the maximum, the job has already been popped from the attempt mapping and
    stays out of it: the partition the call leaves behind is the former one
    without that job. *)
Theorem replace_job_rejection_drops_job (p : AsyncPartition) (job_to_replace : AsyncJob)
    (new_jobs : list AsyncJob) (c : nat) :
  dict_get (_attempts_per_job p) job_to_replace = Some c ->
  _MAX_NUMBER_OF_ATTEMPTS <= c ->
  fst (replace_job p job_to_replace new_jobs)
    = inl (ValueError ("Max attempt reached for job in partition " ++ _stream_slice p))
  /\ In job_to_replace (jobs p)
  /\ ~ In job_to_replace (jobs (snd (replace_job p job_to_replace new_jobs)))
  /\ _attempts_per_job (snd (replace_job p job_to_replace new_jobs))
     = dict_del (_attempts_per_job p) job_to_replace
  /\ forall job, job <> job_to_replace ->
       dict_get (_attempts_per_job (snd (replace_job p job_to_replace new_jobs))) job
       = dict_get (_attempts_per_job p) job.
Proof.
  intros Hget Hmax. unfold replace_job. rewrite Hget.
  destruct (Nat.leb_spec _MAX_NUMBER_OF_ATTEMPTS c) as [_|Hlt]; [|lia]. simpl.
  split; [reflexivity|]. split; [apply jobs_attempt; eauto|]. split; [|split].
  - intros Hin. apply jobs_attempt in Hin as [c' Hc']. simpl in Hc'.
    rewrite dict_get_del_eq in Hc'. discriminate.
  - reflexivity.
  - intros job Hne. apply dict_get_del_ne. exact Hne.
Qed.

Lemma replace_job_rejection_drops_job_witness :
  let job := mkJob 0 "job_" "s" in
  let p := mkPartition [(job, 3); (mkJob 1 "job_I" "s", 1)] "s" in
  jobs p = [job; mkJob 1 "job_I" "s"]
  /\ jobs (snd (replace_job p job [mkJob 2 "job_II" "s"])) = [mkJob 1 "job_I" "s"].
Proof.
  intros job p.
  destruct (replace_job_rejection_drops_job p job [mkJob 2 "job_II" "s"] 3)
    as (_ & _ & _ & Hleft & _).
  - reflexivity.
  - unfold _MAX_NUMBER_OF_ATTEMPTS. lia.
  - split; [reflexivity|]. unfold jobs. rewrite Hleft. reflexivity.
Defined.

(** ** Starting a job *)

Section StartJob.
Context {W : Type} `{Collaborators W}.
Implicit Types (o : AsyncJobOrchestrator W).

Lemma truthy_Some_nonempty (id : string) : id <> "" -> truthy (Some id) = true.
Proof.
  intros Hne. unfold truthy. destruct (String.eqb_spec id ""); [contradiction | reflexivity].
Qed.

Lemma calls_effect_app (cs1 cs2 : list Call) (w1 w2 w3 : W) :
  calls_effect cs1 w1 w2 -> calls_effect cs2 w2 w3 -> calls_effect (cs1 ++ cs2) w1 w3.
Proof.
  revert w1. induction cs1 as [|c cs1 IH]; intros w1; simpl.
  - intros ->. auto.
  - intros (w & Hc & Hrest) H23. exists w. split; [exact Hc | exact (IH w Hrest H23)].
Qed.

Lemma made_calls_trans o1 o2 o3 (cs1 cs2 : list Call) :
  made_calls o1 o2 cs1 -> made_calls o2 o3 cs2 -> made_calls o1 o3 (cs1 ++ cs2).
Proof.
  unfold made_calls, only_calls_made. intros [H12 E12] [H23 E23]. split.
  - rewrite H23. rewrite H12. simpl. rewrite app_assoc. reflexivity.
  - exact (calls_effect_app _ _ _ _ _ E12 E23).
Qed.

Lemma made_calls_nil o : made_calls o o [].
Proof.
  split; [|reflexivity]. unfold only_calls_made. rewrite app_nil_r. destruct o; reflexivity.
Qed.

(** C7.  [_start_job] does not leak the slot it works with.  Its calls are
    made to the collaborators with the outcomes logged, and nothing else of
    the orchestrator changes.  When it raises [e], either the reservation
    itself failed with [e] (no slot was taken), or the remote start or the
    binding failed with [e] and the last thing done to the collaborators is
    the release of the slot, reserved or reused.  When it returns a job, the
    job is the one the remote start returned and the slot has been bound to
    that job's remote id by the tracker, and not released. *)
Theorem start_job_never_leaks_slot (_slice : StreamSlice) (previous_job_id : option string) o :
  match _start_job _slice previous_job_id o with
  | (inr job, o') =>
      exists acquisition id,
        slot_in_use previous_job_id acquisition id
        /\ made_calls o o'
             (acquisition ++ [CallStart _slice (inr job);
                              CallAddJob id (api_job_id job) (inr tt)])
  | (inl e, o') =>
      (truthy previous_job_id = false
       /\ made_calls o o' [CallTryToGetIntent (inl e)])
      \/ exists acquisition id attempt,
           slot_in_use previous_job_id acquisition id
           /\ (attempt = [CallStart _slice (inl e)]
               \/ exists job,
                    attempt = [CallStart _slice (inr job);
                               CallAddJob id (api_job_id job) (inl e)])
           /\ made_calls o o' (acquisition ++ attempt ++ [CallRemoveJob id])
  end.
Proof.
  assert (Hgo : forall id acquisition o1,
    slot_in_use previous_job_id acquisition id ->
    made_calls o o1 acquisition ->
    match try_except
            (job <- start _slice ;; add_job id (api_job_id job) ;; ret job)
            (fun exception => remove_job id ;; raise exception) o1 with
    | (inr job, o') =>
        exists acquisition id,
          slot_in_use previous_job_id acquisition id
          /\ made_calls o o'
               (acquisition ++ [CallStart _slice (inr job);
                                CallAddJob id (api_job_id job) (inr tt)])
    | (inl e, o') =>
        (truthy previous_job_id = false
         /\ made_calls o o' [CallTryToGetIntent (inl e)])
        \/ exists acquisition id attempt,
             slot_in_use previous_job_id acquisition id
             /\ (attempt = [CallStart _slice (inl e)]
                 \/ exists job,
                      attempt = [CallStart _slice (inr job);
                                 CallAddJob id (api_job_id job) (inl e)])
             /\ made_calls o o' (acquisition ++ attempt ++ [CallRemoveJob id])
    end).
  { intros id acquisition o1 Hslot Hmade.
    unfold try_except, bind, start, add_job, remove_job, raise, ret.
    destruct (repository_start _slice (_collaborators o1)) as [[e|job] w2] eqn:Hstart; simpl.
    - right. exists acquisition, id, [CallStart _slice (inl e)].
      split; [exact Hslot|]. split; [now left|].
      apply (made_calls_trans _ _ _ _ _ Hmade). split.
      + unfold only_calls_made, log_call, set_collaborators. simpl.
        rewrite <- app_assoc. reflexivity.
      + simpl. exists w2. split; [exact Hstart|]. eexists. split; reflexivity.
    - destruct (tracker_add_job id (api_job_id job) w2) as [[e|[]] w3] eqn:Hadd; simpl.
      + right. exists acquisition, id,
          [CallStart _slice (inr job); CallAddJob id (api_job_id job) (inl e)].
        split; [exact Hslot|]. split; [right; eauto|].
        apply (made_calls_trans _ _ _ _ _ Hmade). split.
        * unfold only_calls_made, log_call, set_collaborators. simpl.
          rewrite <- !app_assoc. reflexivity.
        * simpl. exists w2. split; [exact Hstart|]. exists w3. split; [exact Hadd|].
          eexists. split; reflexivity.
      + exists acquisition, id. split; [exact Hslot|].
        apply (made_calls_trans _ _ _ _ _ Hmade). split.
        * unfold only_calls_made, log_call, set_collaborators. simpl.
          rewrite <- !app_assoc. reflexivity.
        * simpl. exists w2. split; [exact Hstart|]. exists w3. split; [exact Hadd|].
          reflexivity. }
  unfold _start_job, bind at 1.
  destruct (truthy previous_job_id) eqn:Htruthy.
  - destruct previous_job_id as [id|]; [|discriminate].
    unfold id_to_replace_of. rewrite Htruthy. unfold ret at 1.
    apply (Hgo id [] o); [left; auto | apply made_calls_nil].
  - assert (Hid : id_to_replace_of previous_job_id o = try_to_get_intent o).
    { unfold id_to_replace_of. destruct previous_job_id; [rewrite Htruthy|]; reflexivity. }
    rewrite Hid. unfold try_to_get_intent at 1.
    destruct (tracker_try_to_get_intent (_collaborators o)) as [[e|id] w1] eqn:Hintent.
    + left. split; [reflexivity|]. split.
      * unfold only_calls_made, log_call, set_collaborators. reflexivity.
      * simpl. exists w1. split; [exact Hintent | reflexivity].
    + apply (Hgo id [CallTryToGetIntent (inr id)]); [right; auto|]. split.
      * unfold only_calls_made, log_call, set_collaborators. reflexivity.
      * simpl. exists w1. split; [exact Hintent | reflexivity].
Qed.

(** [_abort_job] swallows whatever the abort raises. *)
Lemma abort_job_never_raises (job : AsyncJob) (free_job_allocation : bool) o :
  fst (_abort_job job free_job_allocation o) = inr tt.
Proof.
  unfold _abort_job, try_except, bind, abort, remove_job, ret.
  destruct (repository_abort job (_collaborators o)) as [[e|[]] w1]; simpl; [reflexivity|].
  destruct free_job_allocation; reflexivity.
Qed.
End StartJob.

(** ** Triage *)

Section Triage.
Context {W : Type} `{Collaborators W}.
Implicit Types (o : AsyncJobOrchestrator W).

Lemma only_calls_made_nil o : only_calls_made o o [].
Proof. unfold only_calls_made. rewrite app_nil_r. destruct o; reflexivity. Qed.

Lemma only_calls_made_trans o1 o2 o3 cs1 cs2 :
  only_calls_made o1 o2 cs1 -> only_calls_made o2 o3 cs2 ->
  only_calls_made o1 o3 (cs1 ++ cs2).
Proof.
  unfold only_calls_made. intros H12 H23. rewrite H23. rewrite H12. simpl.
  rewrite app_assoc. reflexivity.
Qed.

Lemma abort_job_calls (job : AsyncJob) (free_job_allocation : bool) o :
  exists cs o',
    _abort_job job free_job_allocation o = (inr tt, o')
    /\ only_calls_made o o' cs
    /\ job_status (_collaborators o') = job_status (_collaborators o)
    /\ (if free_job_allocation
        then cs = [CallAbort job (inr tt); CallRemoveJob (api_job_id job)]
             \/ exists e, cs = [CallAbort job (inl e)]
        else exists outcome, cs = [CallAbort job outcome]).
Proof.
  unfold _abort_job, try_except, bind, abort, remove_job, ret.
  pose proof (abort_keeps_status job (_collaborators o)) as Hkeep.
  destruct (repository_abort job (_collaborators o)) as [[e|[]] w1]; simpl in *.
  - exists [CallAbort job (inl e)]. eexists. split; [reflexivity|].
    split; [reflexivity|]. split; [exact Hkeep|].
    destruct free_job_allocation; eauto.
  - destruct free_job_allocation; simpl.
    + exists [CallAbort job (inr tt); CallRemoveJob (api_job_id job)]. eexists.
      split; [reflexivity|]. split.
      { unfold only_calls_made, log_call, set_collaborators. simpl.
        rewrite <- app_assoc. reflexivity. }
      split; [|now left]. simpl. rewrite remove_job_keeps_status. exact Hkeep.
    + exists [CallAbort job (inr tt)]. eexists. split; [reflexivity|].
      split; [reflexivity|]. split; [exact Hkeep|]. eauto.
Qed.

Lemma remove_job_calls (job_id : string) o :
  exists o',
    remove_job job_id o = (inr tt, o')
    /\ only_calls_made o o' [CallRemoveJob job_id]
    /\ job_status (_collaborators o') = job_status (_collaborators o).
Proof.
  unfold remove_job. eexists. split; [reflexivity|]. split; [reflexivity|].
  simpl. apply remove_job_keeps_status.
Qed.

Lemma stop_partition_calls (l : list AsyncJob) o :
  exists groups o',
    for_each l (fun job =>
      s <- read_status job ;;
      match s with
      | RUNNING | TIMED_OUT => _abort_job job true
      | _ => remove_job (api_job_id job)
      end) o = (inr tt, o')
    /\ Forall2 (fun job cs => stop_calls (job_status (_collaborators o) job) job cs) l groups
    /\ only_calls_made o o' (concat groups)
    /\ job_status (_collaborators o') = job_status (_collaborators o).
Proof.
  revert o. induction l as [|job l IH]; intros o; simpl.
  - exists [], o. split; [reflexivity|]. split; [constructor|].
    split; [apply only_calls_made_nil | reflexivity].
  - unfold bind at 1. unfold bind at 1. unfold read_status at 1.
    assert (Hstep : exists cs o1,
      match job_status (_collaborators o) job with
      | RUNNING | TIMED_OUT => _abort_job job true
      | _ => remove_job (api_job_id job)
      end o = (inr tt, o1)
      /\ only_calls_made o o1 cs
      /\ job_status (_collaborators o1) = job_status (_collaborators o)
      /\ stop_calls (job_status (_collaborators o) job) job cs).
    { unfold stop_calls.
      destruct (abort_job_calls job true o) as (cs & o1 & Hrun & Hmade & Hst & Hcs).
      destruct (remove_job_calls (api_job_id job) o) as (o2 & Hrun2 & Hmade2 & Hst2).
      destruct (job_status (_collaborators o) job);
        [ exists cs, o1 | eexists _, o2 | eexists _, o2 | exists cs, o1 ];
        repeat split; solve [eassumption | reflexivity]. }
    destruct Hstep as (cs & o1 & Hrun & Hmade & Hst & Hcs). rewrite Hrun.
    destruct (IH o1) as (groups & o' & Hrest & Hall & Hmade' & Hst').
    exists (cs :: groups), o'. split; [exact Hrest|]. split.
    + constructor; [exact Hcs|]. rewrite Hst in Hall. exact Hall.
    + split; [|congruence]. simpl. eapply only_calls_made_trans; eassumption.
Qed.

Lemma stop_timed_out_jobs_calls (l : list AsyncJob) o :
  exists groups o',
    for_each l (fun job =>
      s <- read_status job ;;
      match s with
      | TIMED_OUT => _abort_job job false
      | _ => ret tt
      end) o = (inr tt, o')
    /\ Forall2 (fun job cs => stop_timed_out_calls (job_status (_collaborators o) job) job cs)
               l groups
    /\ only_calls_made o o' (concat groups)
    /\ job_status (_collaborators o') = job_status (_collaborators o).
Proof.
  revert o. induction l as [|job l IH]; intros o; simpl.
  - exists [], o. split; [reflexivity|]. split; [constructor|].
    split; [apply only_calls_made_nil | reflexivity].
  - unfold bind at 1. unfold bind at 1. unfold read_status at 1.
    assert (Hstep : exists cs o1,
      match job_status (_collaborators o) job with
      | TIMED_OUT => _abort_job job false
      | _ => ret tt
      end o = (inr tt, o1)
      /\ only_calls_made o o1 cs
      /\ job_status (_collaborators o1) = job_status (_collaborators o)
      /\ stop_timed_out_calls (job_status (_collaborators o) job) job cs).
    { unfold stop_timed_out_calls.
      destruct (job_status (_collaborators o) job);
        try (exists [], o; split; [reflexivity|]; split; [apply only_calls_made_nil|];
             split; reflexivity).
      destruct (abort_job_calls job false o) as (cs & o1 & Hrun & Hmade & Hst & Hcs).
      exists cs, o1. auto. }
    destruct Hstep as (cs & o1 & Hrun & Hmade & Hst & Hcs). rewrite Hrun.
    destruct (IH o1) as (groups & o' & Hrest & Hall & Hmade' & Hst').
    exists (cs :: groups), o'. split; [exact Hrest|]. split.
    + constructor; [exact Hcs|]. rewrite Hst in Hall. exact Hall.
    + split; [|congruence]. simpl. eapply only_calls_made_trans; eassumption.
Qed.

Lemma release_completed_jobs_calls (l : list AsyncJob) o :
  exists o',
    for_each l (fun job =>
      s <- read_status job ;;
      match s with
      | COMPLETED => remove_job (api_job_id job)
      | _ => ret tt
      end) o = (inr tt, o')
    /\ only_calls_made o o'
         (flat_map (fun job => match job_status (_collaborators o) job with
                               | COMPLETED => [CallRemoveJob (api_job_id job)]
                               | _ => []
                               end) l)
    /\ job_status (_collaborators o') = job_status (_collaborators o).
Proof.
  revert o. induction l as [|job l IH]; intros o; simpl.
  - exists o. split; [reflexivity|]. split; [apply only_calls_made_nil | reflexivity].
  - unfold bind at 1. unfold bind at 1. unfold read_status at 1.
    destruct (job_status (_collaborators o) job) eqn:Hs;
      try (destruct (IH o) as (o' & Hrest & Hmade & Hst); exists o'; simpl;
           repeat split; assumption).
    destruct (remove_job_calls (api_job_id job) o) as (o1 & Hrun & Hmade & Hst).
    rewrite Hrun. destruct (IH o1) as (o' & Hrest & Hmade' & Hst').
    exists o'. split; [exact Hrest|]. split; [|congruence].
    rewrite Hst in Hmade'.
    exact (only_calls_made_trans _ _ _ _ _ Hmade Hmade').
Qed.
Lemma triage_exhausted_partition (partition : AsyncPartition)
    (current_running_partitions : list AsyncPartition) o :
  status (job_status (_collaborators o)) partition <> COMPLETED ->
  status (job_status (_collaborators o)) partition <> RUNNING ->
  has_reached_max_attempt partition = true ->
  exists groups o',
    triage_partition partition current_running_partitions o
    = (inl (AirbyteTracedException
              (JobsNotCompleted (status_by_job_id (job_status (_collaborators o)) partition))
              system_error), o')
    /\ Forall2 (fun job cs => stop_calls (job_status (_collaborators o) job) job cs)
               (jobs partition) groups
    /\ only_calls_made o o' (concat groups).
Proof.
  intros Hnc Hnr Hmax.
  destruct (stop_partition_calls (jobs partition) o) as (groups & o' & Hrun & Hall & Hmade & Hst).
  exists groups, o'. split; [|split; assumption].
  unfold triage_partition. unfold bind at 1. unfold partition_status at 1.
  unfold bind at 1.
  destruct (status (job_status (_collaborators o)) partition); try congruence;
    rewrite Hmax; unfold bind at 1; unfold _stop_partition; rewrite Hrun;
    unfold bind at 1; unfold _process_partitions_with_errors, bind, get, raise;
    unfold status_by_job_id; rewrite Hst; reflexivity.
Qed.

Lemma triage_retriable_partition (partition : AsyncPartition)
    (current_running_partitions : list AsyncPartition) o :
  status (job_status (_collaborators o)) partition = FAILED
  \/ status (job_status (_collaborators o)) partition = TIMED_OUT ->
  has_reached_max_attempt partition = false ->
  exists aborts o',
    triage_partition partition current_running_partitions o
    = (inr (partition :: current_running_partitions), o')
    /\ Forall2 (fun job cs => stop_timed_out_calls (job_status (_collaborators o) job) job cs)
               (jobs partition) aborts
    /\ only_calls_made o o'
         (concat aborts ++ release_completed_calls (job_status (_collaborators o)) partition)
    /\ job_status (_collaborators o') = job_status (_collaborators o).
Proof.
  intros Hstatus Hmax.
  destruct (stop_timed_out_jobs_calls (jobs partition) o)
    as (aborts & o1 & Hrun & Hall & Hmade & Hst).
  destruct (release_completed_jobs_calls (jobs partition) o1) as (o' & Hrun' & Hmade' & Hst').
  exists aborts, o'. split; [|split; [exact Hall|split; [|congruence]]].
  - unfold triage_partition. unfold bind at 1. unfold partition_status at 1.
    unfold bind at 1.
    destruct Hstatus as [-> | ->]; rewrite Hmax; unfold bind at 1;
      unfold _stop_timed_out_jobs; rewrite Hrun; unfold ret at 1;
      unfold bind at 1; rewrite Hrun'; reflexivity.
  - unfold release_completed_calls. rewrite <- Hst.
    exact (only_calls_made_trans _ _ _ _ _ Hmade Hmade').
Qed.
End Triage.

(** ** The retry pass *)

Section Retry.
Context {W : Type} `{Collaborators W}.
Implicit Types (o : AsyncJobOrchestrator W).

Lemma only_calls_made_calls o o' cs : only_calls_made o o' cs -> calls o' = calls o ++ cs.
Proof. intros Hmade. rewrite Hmade. reflexivity. Qed.

Lemma only_calls_made_partitions o o' cs :
  only_calls_made o o' cs -> _running_partitions o' = _running_partitions o.
Proof. intros Hmade. rewrite Hmade. reflexivity. Qed.

Lemma only_calls_made_yielded o o' cs : only_calls_made o o' cs -> yielded o' = yielded o.
Proof. intros Hmade. rewrite Hmade. reflexivity. Qed.

Lemma not_max_attempt_lt (p : AsyncPartition) (job : AsyncJob) (c : nat) :
  has_reached_max_attempt p = false ->
  dict_get (_attempts_per_job p) job = Some c -> c < _MAX_NUMBER_OF_ATTEMPTS.
Proof.
  unfold has_reached_max_attempt. intros Hmax Hget.
  apply dict_get_In in Hget.
  destruct (Nat.leb_spec _MAX_NUMBER_OF_ATTEMPTS c) as [Hle|Hlt]; [|exact Hlt].
  assert (Htrue : existsb (fun attempt_count => (_MAX_NUMBER_OF_ATTEMPTS <=? attempt_count)%nat)
                          (map snd (_attempts_per_job p)) = true).
  { apply existsb_exists. exists c. split; [exact Hget | now apply Nat.leb_le]. }
  congruence.
Qed.

Section Reliable.
Variable reliable : W -> Prop.
Variable known : list AsyncJob.
Hypothesis remote_starts_new_jobs : starts_new_jobs reliable known.

Lemma start_job_reusing_slot (_slice : StreamSlice) (id : string) o :
  id <> "" ->
  reliable (_collaborators o) ->
  exists new_job o',
    _start_job _slice (Some id) o = (inr new_job, o')
    /\ only_calls_made o o' [CallStart _slice (inr new_job);
                             CallAddJob id (api_job_id new_job) (inr tt)]
    /\ ~ In new_job known
    /\ reliable (_collaborators o').
Proof.
  intros Hid Hrel. unfold _start_job, bind at 1, id_to_replace_of.
  rewrite (truthy_Some_nonempty id Hid). unfold ret at 1.
  unfold try_except, bind, start, add_job, ret.
  destruct (remote_starts_new_jobs _ Hrel) as [Hstart _].
  destruct (Hstart _slice) as (new_job & Hjob & Hnew & Hrel2).
  destruct (repository_start _slice (_collaborators o)) as [r w2]. simpl in Hjob, Hrel2.
  subst r. simpl.
  destruct (remote_starts_new_jobs _ Hrel2) as [_ Hadd].
  destruct (Hadd id (api_job_id new_job)) as [Hbound Hrel3].
  destruct (tracker_add_job id (api_job_id new_job) w2) as [r w3]. simpl in Hbound, Hrel3.
  subst r.
  exists new_job. eexists. split; [reflexivity|]. split; [|split; [exact Hnew | exact Hrel3]].
  unfold only_calls_made, log_call, set_collaborators. simpl.
  rewrite <- app_assoc. reflexivity.
Qed.

Lemma retry_loop (i : nat) (l : list AsyncJob) :
  forall o (q : AsyncPartition),
    _running_partitions o !! i = Some q ->
    reliable (_collaborators o) ->
    NoDup l ->
    (forall job, In job l -> In job known) ->
    (forall job, In job l -> api_job_id job <> "") ->
    (forall job, In job l ->
       exists c, dict_get (_attempts_per_job q) job = Some c /\ c < _MAX_NUMBER_OF_ATTEMPTS) ->
    exists new_jobs o' q',
      for_each l (fun job =>
        new_job <- _start_job (job_parameters job) (Some (api_job_id job)) ;;
        partition_replace_job i job [new_job]) o = (inr tt, o')
      /\ length new_jobs = length l
      /\ calls o' = calls o ++ retry_calls l new_jobs
      /\ _running_partitions o' = <[ i := q' ]> (_running_partitions o)
      /\ Forall (fun new_job => ~ In new_job known) new_jobs
      /\ (forall job, In job l -> ~ In job (jobs q'))
      /\ (forall k job new_job c,
            l !! k = Some job -> new_jobs !! k = Some new_job ->
            dict_get (_attempts_per_job q) job = Some c ->
            (forall k', k < k' -> new_jobs !! k' <> Some new_job) ->
            dict_get (_attempts_per_job q') new_job = Some (c + 1))
      /\ (forall job, ~ In job l -> ~ In job new_jobs ->
            dict_get (_attempts_per_job q') job = dict_get (_attempts_per_job q) job).
Proof.
  induction l as [|job l IH]; intros o q Hq Hrel Hnodup Hknown Hids Hcounts.
  - exists [], o, q. simpl. split; [reflexivity|]. split; [reflexivity|].
    split; [now rewrite app_nil_r|]. split; [now rewrite list_insert_id|].
    split; [constructor|]. split; [tauto|]. split; [|reflexivity].
    intros k job new_job c Hk. destruct k; discriminate.
  - simpl. unfold bind at 1. unfold bind at 1.
    destruct (start_job_reusing_slot (job_parameters job) (api_job_id job) o)
      as (new_job & o1 & Hstart & Hmade & Hnew & Hrel1).
    { apply Hids. now left. }
    { exact Hrel. }
    rewrite Hstart.
    destruct (Hcounts job) as (c & Hc & Hlt); [now left|].
    assert (Hne : new_job <> job).
    { intros ->. apply Hnew, Hknown. now left. }
    unfold partition_replace_job at 1.
    rewrite (only_calls_made_partitions _ _ _ Hmade), Hq.
    unfold replace_job. rewrite Hc.
    destruct (Nat.leb_spec _MAX_NUMBER_OF_ATTEMPTS c) as [Hle|_]; [lia|]. simpl.
    set (q1 := {| _attempts_per_job :=
                    dict_set (dict_del (_attempts_per_job q) job) new_job (c + 1);
                  _stream_slice := _stream_slice q |}).
    set (o2 := set_running_partitions (<[ i := q1 ]> (_running_partitions o)) o1).
    assert (Hq1 : forall job', job' <> job -> job' <> new_job ->
              dict_get (_attempts_per_job q1) job' = dict_get (_attempts_per_job q) job').
    { intros job' Hj Hn. simpl. rewrite dict_get_set_ne by exact Hn.
      apply dict_get_del_ne. exact Hj. }
    inversion Hnodup as [|? ? Hnotin Hnodup']; subst.
    rewrite list_elem_of_In in Hnotin.
    destruct (IH o2 q1) as (new_jobs & o' & q' & Hrun & Hlen & Hcalls & Hparts & Hfresh
                            & Hgone & Hcount & Hother).
    { subst o2. simpl. apply list_lookup_insert_eq. eapply lookup_lt_Some, Hq. }
    { exact Hrel1. }
    { exact Hnodup'. }
    { intros job' Hin. apply Hknown. now right. }
    { intros job' Hin. apply Hids. now right. }
    { intros job' Hin. destruct (Hcounts job') as (c' & Hc' & Hlt'); [now right|].
      exists c'. split; [|exact Hlt'].
      rewrite Hq1; [exact Hc' | intros ->; contradiction |].
      intros ->. apply Hnew, Hknown. now right. }
    exists (new_job :: new_jobs), o', q'.
    split; [exact Hrun|]. split; [simpl; congruence|]. split.
    { rewrite Hcalls. subst o2. simpl. rewrite (only_calls_made_calls _ _ _ Hmade).
      rewrite <- app_assoc. reflexivity. }
    split.
    { rewrite Hparts. subst o2. simpl. apply list_insert_insert_eq. }
    split; [constructor; assumption|].
    assert (Hfresh' : forall job', In job' known -> ~ In job' new_jobs).
    { intros job' Hk Hin. rewrite Forall_forall in Hfresh.
      apply (Hfresh job'); [apply list_elem_of_In; exact Hin | exact Hk]. }
    split; [|split].
    + intros job' [<-|Hin]; [|auto].
      intros Hjob. apply jobs_attempt in Hjob as [c' Hc'].
      rewrite Hother in Hc'; [| exact Hnotin | apply Hfresh', Hknown; now left].
      simpl in Hc'. rewrite dict_get_set_ne in Hc' by congruence.
      rewrite dict_get_del_eq in Hc'. discriminate.
    + intros k job' new_job' c' Hk Hnk Hc' Hlast. destruct k as [|k]; simpl in Hk, Hnk.
      * injection Hk as <-. injection Hnk as <-.
        assert (c' = c) as -> by congruence.
        rewrite Hother.
        -- simpl. apply dict_get_set_eq.
        -- intros Hin. apply Hnew, Hknown. now right.
        -- intros Hin. apply list_elem_of_In, list_elem_of_lookup in Hin as [k' Hk'].
           apply (Hlast (S k')); [lia | exact Hk'].
      * assert (Hin : In job' l).
        { apply list_elem_of_In, list_elem_of_lookup. eauto. }
        apply (Hcount k job' new_job' c' Hk Hnk).
        -- rewrite Hq1; [exact Hc' | intros ->; contradiction |].
           intros ->. apply Hnew, Hknown. now right.
        -- intros k' Hlt'. apply (Hlast (S k')). lia.
    + intros job' Hnl Hnn. rewrite Hother.
      * apply Hq1; [intros ->; apply Hnl; now left | intros ->; apply Hnn; now left].
      * intros Hin. apply Hnl. now right.
      * intros Hin. apply Hnn. now right.
Qed.
End Reliable.
End Retry.

(** ** Partitions that failed or timed out *)




(** When the abort of a job of such a partition fails, the failure is
    swallowed and the slot of the job is not released. *)
Lemma exhausted_partition_failed_abort_keeps_slot :
  let partition := mkPartition [(first_job, 3)] "s1" in
  let w := mkRemote (mkTracker 1 ["job_"] 1) 1 [(0, TIMED_OUT)] (fun _ => None)
             (fun _ => Some (RuntimeError "abort failed")) (fun _ => TIMED_OUT) in
  let o := mkOrchestrator w [] [partition] (fun _ => false) true true [] [] [] in
  calls (snd (triage_partition partition [] o))
  = [CallAbort first_job (inl (RuntimeError "abort failed"))]
  /\ _jobs (tracker (_collaborators (snd (triage_partition partition [] o)))) = ["job_"].
Proof. vm_compute. split; reflexivity. Qed.

Lemma retry_calls_reserve_nothing (l new_jobs : list AsyncJob) (outcome : Result string) :
  ~ In (CallTryToGetIntent outcome) (retry_calls l new_jobs).
Proof.
  revert new_jobs. induction l as [|job l IH]; intros [|new_job new_jobs]; simpl; try tauto.
  intros [Heq|[Heq|Hin]]; try discriminate. exact (IH _ Hin).
Qed.

(** The scripted remote starts new jobs as long as its script lets every
    start through: the jobs it creates are numbered from [created] on. *)
Lemma reliable_remote_starts_new_jobs (n : nat) (known : list AsyncJob) :
  (forall job, In job known -> job_ref job < n) ->
  starts_new_jobs (reliable_remote n) known.
Proof.
  intros Hknown w [Hscript Hcreated]. split.
  - intros _slice. simpl. unfold Remote_start. rewrite Hscript. simpl.
    eexists. split; [reflexivity|]. split.
    + intros Hin. apply Hknown in Hin. simpl in Hin. lia.
    + split; simpl; [exact Hscript | lia].
  - intros id_to_replace job_id. simpl. split; [reflexivity|].
    split; simpl; assumption.
Qed.

(** ** The main loop *)

Section MainLoop.
Context {W : Type} `{Collaborators W}.
Implicit Types (o : AsyncJobOrchestrator W).

Lemma known_statuses_cover_the_enum :
  bool_decide ((list_to_set [RUNNING; COMPLETED; FAILED; TIMED_OUT] : gset AsyncJobStatus)
               <> _KNOWN_JOB_STATUSES) = false.
Proof. vm_compute. reflexivity. Qed.

(** [__init__] does not raise, and leaves [_has_consumed_every_slice] set. *)
Lemma orchestrator_init (w : W) (slices : list StreamSlice)
    (exceptions_to_break_on : Exception -> bool) :
  AsyncJobOrchestrator_init w slices exceptions_to_break_on
  = inr (mkOrchestrator w slices [] exceptions_to_break_on false true [] [] []).
Proof.
  unfold AsyncJobOrchestrator_init. rewrite known_statuses_cover_the_enum. reflexivity.
Qed.

Lemma keeps_slices_refl o : keeps_slices o o.
Proof. split; reflexivity. Qed.

Lemma keeps_slices_trans o1 o2 o3 :
  keeps_slices o1 o2 -> keeps_slices o2 o3 -> keeps_slices o1 o3.
Proof. intros [Hi Hp] [Hi' Hp']. split; congruence. Qed.

Lemma leaves_slices_ret {A : Type} (a : A) : leaves_slices (ret a : M (AsyncJobOrchestrator W) A).
Proof. intros o. apply keeps_slices_refl. Qed.

Lemma leaves_slices_raise {A : Type} (e : Exception) :
  leaves_slices (raise e : M (AsyncJobOrchestrator W) A).
Proof. intros o. apply keeps_slices_refl. Qed.

Lemma leaves_slices_bind {A B : Type} (m : M (AsyncJobOrchestrator W) A)
    (k : A -> M (AsyncJobOrchestrator W) B) :
  leaves_slices m -> (forall a, leaves_slices (k a)) -> leaves_slices (bind m k).
Proof.
  intros Hm Hk o. unfold bind. specialize (Hm o).
  destruct (m o) as [[e|a] o1]; simpl in *; [exact Hm|].
  eapply keeps_slices_trans; [exact Hm | apply Hk].
Qed.

Lemma leaves_slices_try_except {A : Type} (body : M (AsyncJobOrchestrator W) A)
    (handler : Exception -> M (AsyncJobOrchestrator W) A) :
  leaves_slices body -> (forall e, leaves_slices (handler e)) ->
  leaves_slices (try_except body handler).
Proof.
  intros Hb Hh o. unfold try_except. specialize (Hb o).
  destruct (body o) as [[e|a] o1]; simpl in *; [|exact Hb].
  eapply keeps_slices_trans; [exact Hb | apply Hh].
Qed.

Lemma leaves_slices_for_each {A : Type} (l : list A)
    (body : A -> M (AsyncJobOrchestrator W) unit) :
  (forall a, leaves_slices (body a)) -> leaves_slices (for_each l body).
Proof.
  intros Hbody. induction l as [|a l IH]; simpl.
  - apply leaves_slices_ret.
  - apply leaves_slices_bind; [apply Hbody | intros _; exact IH].
Qed.

Lemma leaves_slices_start_job (_slice : StreamSlice) (previous_job_id : option string) :
  leaves_slices (_start_job _slice previous_job_id).
Proof.
  assert (Hintent : leaves_slices try_to_get_intent).
  { intros o. unfold try_to_get_intent.
    destruct (tracker_try_to_get_intent (_collaborators o)). split; reflexivity. }
  unfold _start_job. apply leaves_slices_bind.
  - unfold id_to_replace_of. destruct previous_job_id; [destruct (truthy _)|];
      auto using leaves_slices_ret.
  - intros id. apply leaves_slices_try_except.
    + apply leaves_slices_bind.
      * intros o. unfold start. destruct (repository_start _ _). split; reflexivity.
      * intros job. apply leaves_slices_bind; [|intros _; apply leaves_slices_ret].
        intros o. unfold add_job. destruct (tracker_add_job _ _ _). split; reflexivity.
    + intros e. apply leaves_slices_bind; [|intros _; apply leaves_slices_raise].
      intros o. split; reflexivity.
Qed.

Lemma replace_job_keeps_slice (p : AsyncPartition) (job : AsyncJob) (new_jobs : list AsyncJob) :
  stream_slice (snd (replace_job p job new_jobs)) = stream_slice p.
Proof.
  unfold replace_job. destruct (dict_get _ _); [destruct (_ <=? _)%nat|]; reflexivity.
Qed.

Lemma map_stream_slice_insert (l : list AsyncPartition) (i : nat) (p p' : AsyncPartition) :
  l !! i = Some p -> stream_slice p' = stream_slice p ->
  map stream_slice (<[ i := p' ]> l) = map stream_slice l.
Proof.
  revert i. induction l as [|q l IH]; intros [|i] Hi Hs; simpl in *; try discriminate.
  - injection Hi as ->. now rewrite Hs.
  - f_equal. now apply IH.
Qed.

Lemma leaves_slices_replace_failed_jobs (i : nat) : leaves_slices (_replace_failed_jobs i).
Proof.
  unfold _replace_failed_jobs. apply leaves_slices_bind; [intros o; apply keeps_slices_refl|].
  intros o0. destruct (_running_partitions o0 !! i); [|apply leaves_slices_ret].
  apply leaves_slices_for_each. intros job.
  apply leaves_slices_bind; [apply leaves_slices_start_job|].
  intros new_job o. unfold partition_replace_job.
  destruct (_running_partitions o !! i) as [p|] eqn:Hi; [|apply keeps_slices_refl].
  pose proof (replace_job_keeps_slice p job [new_job]) as Hslice.
  destruct (replace_job p job [new_job]) as [r p']. simpl in *.
  split; [reflexivity|]. simpl. eapply map_stream_slice_insert; eassumption.
Qed.

(** The admission loop accounts for every slice of the iterator: when it
    raises, the slice it was starting a job for is in [_slice] and the slices
    after it are still in the iterator. *)
Lemma admit_slices_accounts_for_every_slice (slices : list StreamSlice) :
  forall f : StartJobsFrame,
    _slice_iterator (self f) = slices ->
    match admit_slices slices f with
    | (inr _, f') =>
        _slice_iterator (self f') = []
        /\ map stream_slice (_running_partitions (self f'))
           = map stream_slice (_running_partitions (self f)) ++ slices
    | (inl e, f') =>
        exists admitted s rest,
          slices = admitted ++ s :: rest
          /\ _slice_iterator (self f') = rest
          /\ _slice f' = Some s
          /\ at_least_one_slice_consumed_from_slice_iterator_during_current_iteration f' = true
          /\ map stream_slice (_running_partitions (self f'))
             = map stream_slice (_running_partitions (self f)) ++ admitted
    end.
Proof.
  induction slices as [|s rest IH]; intros f Hit.
  - simpl. unfold on_self, modify. simpl. split; [exact Hit | now rewrite app_nil_r].
  - simpl admit_slices. unfold bind at 1. unfold on_self at 1, modify at 1. simpl.
    unfold bind at 1. unfold modify at 1. simpl.
    unfold bind at 1. unfold modify at 1. simpl.
    unfold bind at 1. unfold on_self at 1. simpl.
    pose proof (leaves_slices_start_job s None (set_slice_iterator rest (self f)))
      as [Hit1 Hparts1].
    destruct (_start_job s None (set_slice_iterator rest (self f))) as [[e|job] o1];
      simpl in Hit1, Hparts1.
    + exists [], s, rest. simpl. rewrite app_nil_r. auto.
    + unfold bind at 1. unfold on_self at 1, modify at 1. simpl.
      unfold bind at 1. unfold on_self at 1, modify at 1. simpl.
      match goal with |- context [admit_slices rest ?f2] => specialize (IH f2) end.
      simpl in IH. specialize (IH Hit1).
      destruct (admit_slices rest _) as [[e|[]] f'].
      * destruct IH as (admitted & s' & rest' & -> & Hit' & Hslice & Hleast & Hparts).
        exists (s :: admitted), s', rest'. split; [reflexivity|]. split; [exact Hit'|].
        split; [exact Hslice|]. split; [exact Hleast|].
        rewrite Hparts, map_app, Hparts1. simpl. rewrite <- app_assoc. reflexivity.
      * destruct IH as [Hit' Hparts]. split; [exact Hit'|].
        rewrite Hparts, map_app, Hparts1. simpl. rewrite <- app_assoc. reflexivity.
Qed.

(** An admission pass drops no slice and keeps the limit condition to
    itself: when [_start_jobs] returns, the slices drawn from the iterator are
    those of the partitions added, in order; and it never raises
    [ConcurrentJobLimitReached]. *)
Lemma start_jobs_drops_no_slice o :
  match _start_jobs o with
  | (inr _, o') =>
      exists admitted,
        _slice_iterator o = admitted ++ _slice_iterator o'
        /\ map stream_slice (_running_partitions o')
           = map stream_slice (_running_partitions o) ++ admitted
  | (inl e, o') => e <> ConcurrentJobLimitReached
  end.
Proof.
  unfold _start_jobs, start_jobs_body. unfold bind at 1. unfold get at 1. simpl self.
  unfold bind at 1. unfold on_self at 1. simpl self.
  pose proof (leaves_slices_for_each (seq 0 (length (_running_partitions o)))
                _replace_failed_jobs leaves_slices_replace_failed_jobs o) as [Hit0 Hparts0].
  destruct (for_each (seq 0 (length (_running_partitions o))) _replace_failed_jobs o)
    as [[e|[]] o0]; simpl in Hit0, Hparts0; simpl.
  - destruct e; try discriminate.
    exists []. simpl. rewrite app_nil_r. auto.
  - unfold bind at 1. unfold get at 1. simpl.
    match goal with |- context [admit_slices _ ?f0] =>
      pose proof (admit_slices_accounts_for_every_slice (_slice_iterator o0) f0 eq_refl) as Hadmit
    end.
    destruct (admit_slices (_slice_iterator o0) _) as [[e|[]] f'].
    + destruct Hadmit as (admitted & s & rest & Hall & Hit' & Hslice & Hleast & Hparts).
      simpl in Hparts.
      destruct e; try discriminate.
      rewrite Hleast, Hslice. exists admitted. simpl.
      split; [rewrite <- Hit0, Hall, Hit'; reflexivity | congruence].
    + destruct Hadmit as [Hit' Hparts]. simpl in Hparts.
      exists (_slice_iterator o0). rewrite Hit', app_nil_r.
      split; [congruence | congruence].
Qed.

(** When the tracker has no slot for the slice just drawn, the admission
    pass ends quietly and the slice is back in front of the iterator. *)
Lemma start_jobs_pushes_slice_back o (s : StreamSlice) (rest : list StreamSlice) (w' : W) :
  _running_partitions o = [] ->
  _slice_iterator o = s :: rest ->
  tracker_try_to_get_intent (_collaborators o) = (inl ConcurrentJobLimitReached, w') ->
  _start_jobs o
  = (inr tt,
     mkOrchestrator w' (s :: rest) [] (_exceptions_to_break_on o) (_has_started_a_job o)
       (_has_consumed_every_slice o) (_non_breaking_exceptions o)
       (calls o ++ [CallTryToGetIntent (inl ConcurrentJobLimitReached)]) (yielded o)).
Proof.
  intros Hparts Hit Hlimit.
  unfold _start_jobs, start_jobs_body. unfold bind at 1. unfold get at 1. simpl self.
  rewrite Hparts. simpl for_each. unfold bind at 1. unfold on_self at 1, ret at 1.
  simpl. unfold bind at 1. unfold get at 1. simpl. rewrite Hit. simpl admit_slices.
  unfold bind, on_self, modify, _start_job, id_to_replace_of, try_to_get_intent.
  unfold bind, set_slice_iterator. simpl.
  rewrite Hlimit. simpl. unfold log_call, set_collaborators. simpl.
  rewrite Hparts. reflexivity.
Qed.

(** The loop of an orchestrator fresh from [__init__] ends in its first
    pass when the tracker has no slot then: no job has been started and the
    slices are all still in the iterator. *)
Lemma first_pass_without_slot_ends_the_loop (w w' : W) (s : StreamSlice)
    (rest : list StreamSlice) (exceptions_to_break_on : Exception -> bool) (fuel : nat) :
  tracker_try_to_get_intent w = (inl ConcurrentJobLimitReached, w') ->
  create_and_get_completed_partitions (S fuel)
    (orchestrator w (s :: rest) exceptions_to_break_on)
  = (inr (Some tt),
     mkOrchestrator w' (s :: rest) [] exceptions_to_break_on false true [] 
       [CallTryToGetIntent (inl ConcurrentJobLimitReached)] []).
Proof.
  intros Hlimit. unfold orchestrator. rewrite orchestrator_init.
  unfold create_and_get_completed_partitions. unfold bind at 1. simpl while_true.
  unfold bind at 1. unfold loop_body. unfold bind at 1. unfold try_except at 1.
  rewrite (start_jobs_pushes_slice_back _ s rest w'); [|reflexivity|reflexivity|exact Hlimit].
  simpl. reflexivity.
Qed.
End MainLoop.

(** C1.  The loop does end while the input is unexhausted and no job has
    ever been started: [_has_consumed_every_slice] is set from [__init__] on,
    so the termination check only asks whether a partition is tracked.  With a
    tracker that has no slot in the first pass, the slice drawn is pushed
    back, nothing is tracked, and the loop ends normally in that pass. *)
Theorem loop_ends_with_unconsumed_slices_and_no_job {W : Type} `{Collaborators W}
    (w w' : W) (s : StreamSlice) (rest : list StreamSlice)
    (exceptions_to_break_on : Exception -> bool) (fuel : nat) :
  tracker_try_to_get_intent w = (inl ConcurrentJobLimitReached, w') ->
  let o := orchestrator w (s :: rest) exceptions_to_break_on in
  let run := create_and_get_completed_partitions (S fuel) o in
  _has_consumed_every_slice o = true
  /\ fst run = inr (Some tt)
  /\ _slice_iterator (snd run) = s :: rest
  /\ _has_started_a_job (snd run) = false
  /\ termination_check (snd run) = true
  /\ calls (snd run) = [CallTryToGetIntent (inl ConcurrentJobLimitReached)]
  /\ yielded (snd run) = [].
Proof.
  intros Hlimit o run. subst run o.
  rewrite (first_pass_without_slot_ends_the_loop w w' s rest _ fuel Hlimit).
  unfold orchestrator. rewrite orchestrator_init. simpl. repeat split; reflexivity.
Qed.

Lemma loop_ends_with_unconsumed_slices_and_no_job_witness :
  let run := create_and_get_completed_partitions 1
               (orchestrator remote_without_free_slot ["s1"] (fun _ => false)) in
  fst run = inr (Some tt)
  /\ _slice_iterator (snd run) = ["s1"]
  /\ _has_started_a_job (snd run) = false.
Proof.
  intros run.
  destruct (loop_ends_with_unconsumed_slices_and_no_job
              remote_without_free_slot remote_without_free_slot "s1" [] (fun _ => false) 0)
    as (_ & Hend & Hit & Hjob & _).
  - reflexivity.
  - split; [exact Hend|]. split; [exact Hit | exact Hjob].
Defined.

(** C2.  With three slices and a tracker whose only slot is held by a job of
    another stream, the only failure is the limit being reached, yet the run
    ends normally without a job started for any slice: the slice drawn is
    pushed back and nothing is raised, but the loop does not go on to start
    the slices once a slot is free. *)
Theorem slices_never_started_when_no_slot_at_first :
  forall fuel,
    let o := orchestrator remote_without_free_slot ["s1"; "s2"; "s3"] (fun _ => false) in
    let run := create_and_get_completed_partitions (S fuel) o in
    fst run = inr (Some tt)
    /\ calls (snd run) = [CallTryToGetIntent (inl ConcurrentJobLimitReached)]
    /\ started_slices (calls (snd run)) = []
    /\ _slice_iterator (snd run) = ["s1"; "s2"; "s3"]
    /\ _non_breaking_exceptions (snd run) = []
    /\ yielded (snd run) = [].
Proof.
  intros fuel o run. subst run o.
  rewrite (first_pass_without_slot_ends_the_loop
             remote_without_free_slot remote_without_free_slot "s1" ["s2"; "s3"] _ fuel);
    [|reflexivity].
  simpl. repeat split; reflexivity.
Qed.

(** C8.  [_abort_all_running_jobs] calls the repository's abort outside any
    [try]: when the start of "s2" raises an error to break on while the job
    of "s1" is running, and the abort of that job fails, the failure of the
    abort is what the caller gets, not the error to break on. *)
Theorem failing_abort_replaces_breaking_error :
  let o := orchestrator remote_failing_abort ["s1"; "s2"] break_on_ValueError in
  fst (_start_jobs o) = inl (ValueError "start failed")
  /\ break_on_ValueError (ValueError "start failed") = true
  /\ fst (create_and_get_completed_partitions 1 o) = inl (RuntimeError "abort failed")
  /\ calls (snd (create_and_get_completed_partitions 1 o))
     = [CallTryToGetIntent (inr "intent_");
        CallStart "s1" (inr first_job);
        CallAddJob "intent_" "job_" (inr tt);
        CallTryToGetIntent (inr "intent_I");
        CallStart "s2" (inl (ValueError "start failed"));
        CallRemoveJob "intent_I";
        CallAbort first_job (inl (RuntimeError "abort failed"))].
Proof. vm_compute. repeat split; reflexivity. Qed.

(** ** Runs of the scenarios of the specification *)

(** Three slices, two slots, every job completed at its first refresh: the
    third slice is pushed back in the first pass and started in the second;
    three partitions are yielded and the run ends normally. *)
Example three_slices_two_slots :
  let run := create_and_get_completed_partitions 3
               (orchestrator (remote 2 [] (fun _ => COMPLETED)) ["s1"; "s2"; "s3"]
                  (fun _ => false)) in
  fst run = inr (Some tt)
  /\ started_slices (calls (snd run)) = ["s1"; "s2"; "s3"]
  /\ map stream_slice (yielded (snd run)) = ["s1"; "s2"; "s3"]
  /\ _jobs (tracker (_collaborators (snd run))) = [].
Proof. vm_compute. repeat split; reflexivity. Qed.

(** A job that times out twice and completes at the third attempt: the
    partition is yielded with attempt count 3, on the slot of the first job. *)
Example timed_out_twice_then_completed :
  let verdict := fun job => if (job_ref job <? 2)%nat then TIMED_OUT else COMPLETED in
  let run := create_and_get_completed_partitions 4
               (orchestrator (remote 1 [] verdict) ["s1"] (fun _ => false)) in
  fst run = inr (Some tt)
  /\ map _attempts_per_job (yielded (snd run)) = [[(mkJob 2 "job_II" "s1", 3)]]
  /\ started_slices (calls (snd run)) = ["s1"; "s1"; "s1"]
  /\ _jobs (tracker (_collaborators (snd run))) = [].
Proof. vm_compute. repeat split; reflexivity. Qed.

(** A job that fails at each of its three attempts: the error of the
    partition is raised and nothing is yielded. *)
Example failed_three_times :
  let run := create_and_get_completed_partitions 4
               (orchestrator (remote 1 [] (fun _ => FAILED)) ["s1"] (fun _ => false)) in
  fst run = inl (AirbyteTracedException (JobsNotCompleted [("job_II", FAILED)]) system_error)
  /\ yielded (snd run) = [].
Proof. vm_compute. split; reflexivity. Qed.

(** A start that fails with an error the run does not break on: the other
    slice completes and the run ends with the error of the incomplete run. *)
Example non_breaking_start_failure :
  let w := mkRemote (mkTracker 2 [] 0) 0 []
             (fun _slice => if String.eqb _slice "s2" then Some (RuntimeError "start failed")
                            else None)
             (fun _ => None) (fun _ => COMPLETED) in
  let run := create_and_get_completed_partitions 3
               (orchestrator w ["s1"; "s2"] (fun _ => false)) in
  fst run = inl (AirbyteTracedException (IncompleteRun [RuntimeError "start failed"])
                   config_error)
  /\ map stream_slice (yielded (snd run)) = ["s1"].
Proof. vm_compute. split; reflexivity. Qed.

(** * Further properties of the partition *)

Section DictInvariants.
Context {K V : Type} `{EqDecision K}.
Implicit Types (d : list (K * V)) (k : K) (v : V).

Lemma dict_set_keys d k v k' :
  In k' (map fst (dict_set d k v)) <-> k' = k \/ In k' (map fst d).
Proof.
  induction d as [|[k0 v0] d IH]; simpl.
  - intuition congruence.
  - destruct (decide (k0 = k)) as [->|Hne]; simpl; [intuition congruence|].
    rewrite IH. intuition congruence.
Qed.

Lemma dict_set_NoDup d k v : NoDup (map fst d) -> NoDup (map fst (dict_set d k v)).
Proof.
  induction d as [|[k0 v0] d IH]; simpl; intros Hnd.
  - apply NoDup_cons. split; [apply not_elem_of_nil | apply NoDup_nil_2].
  - apply NoDup_cons in Hnd as [Hnotin Hnd].
    destruct (decide (k0 = k)) as [->|Hne]; simpl.
    + apply NoDup_cons. split; assumption.
    + apply NoDup_cons. split; [|auto].
      rewrite list_elem_of_In, dict_set_keys. rewrite list_elem_of_In in Hnotin.
      intros [Heq|Hin]; [congruence | contradiction].
Qed.

Lemma dict_del_NoDup d k : NoDup (map fst d) -> NoDup (map fst (dict_del d k)).
Proof.
  induction d as [|[k0 v0] d IH]; simpl; intros Hnd; [exact Hnd|].
  apply NoDup_cons in Hnd as [Hnotin Hnd].
  destruct (decide (k0 = k)) as [->|Hne]; simpl; [auto|].
  apply NoDup_cons. split; [|auto].
  rewrite list_elem_of_In, dict_del_keys. rewrite list_elem_of_In in Hnotin. tauto.
Qed.

Lemma dict_del_absent d k : ~ In k (map fst d) -> dict_del d k = d.
Proof.
  induction d as [|[k0 v0] d IH]; simpl; intros Hn; [reflexivity|].
  destruct (decide (k0 = k)) as [->|Hne]; [tauto|]. f_equal. apply IH. tauto.
Qed.

Lemma dict_set_values d k v (P : V -> Prop) :
  P v -> Forall P (map snd d) -> Forall P (map snd (dict_set d k v)).
Proof.
  intros Hv. induction d as [|[k0 v0] d IH]; simpl; intros Hall.
  - constructor; [exact Hv | constructor].
  - apply Forall_cons in Hall as [H0 Hall].
    destruct (decide (k0 = k)); simpl; constructor; auto.
Qed.

Lemma dict_del_values d k (P : V -> Prop) :
  Forall P (map snd d) -> Forall P (map snd (dict_del d k)).
Proof.
  induction d as [|[k0 v0] d IH]; simpl; intros Hall; [exact Hall|].
  apply Forall_cons in Hall as [H0 Hall].
  destruct (decide (k0 = k)); simpl; [auto | constructor; auto].
Qed.

Lemma dict_set_all_NoDup d (ks : list K) v :
  NoDup (map fst d) -> NoDup (map fst (fold_left (fun d k => dict_set d k v) ks d)).
Proof.
  revert d. induction ks as [|k ks IH]; intros d Hnd; simpl; [exact Hnd|].
  apply IH, dict_set_NoDup, Hnd.
Qed.

Lemma dict_set_all_values d (ks : list K) v (P : V -> Prop) :
  P v -> Forall P (map snd d) ->
  Forall P (map snd (fold_left (fun d k => dict_set d k v) ks d)).
Proof.
  intros Hv. revert d. induction ks as [|k ks IH]; intros d Hall; simpl; [exact Hall|].
  apply IH, dict_set_values; assumption.
Qed.

(** With no key twice, a value of the dictionary is the value of some key. *)
Lemma dict_value_has_key d v :
  NoDup (map fst d) -> In v (map snd d) -> exists k, dict_get d k = Some v.
Proof.
  induction d as [|[k0 v0] d IH]; simpl; intros Hnd Hin; [contradiction|].
  apply NoDup_cons in Hnd as [Hnotin Hnd].
  destruct Hin as [<-|Hin].
  - exists k0. destruct (decide (k0 = k0)); congruence.
  - destruct (IH Hnd Hin) as [k Hk]. exists k.
    destruct (decide (k0 = k)) as [->|Hne]; [|exact Hk].
    exfalso. apply Hnotin, list_elem_of_In. eapply dict_get_Some_In, Hk.
Qed.
End DictInvariants.

(** X1.  A partition fresh from [__init__] holds exactly the jobs given, each
    at attempt 1 and none twice, whatever repetitions the list has; it has not
    reached the maximum number of attempts and carries the slice given. *)
Theorem new_partition_has_every_job_at_first_attempt (job_list : list AsyncJob)
    (_slice : StreamSlice) :
  let p := AsyncPartition_init job_list _slice in
  (forall job, In job (jobs p) <-> In job job_list)
  /\ (forall job, In job job_list -> dict_get (_attempts_per_job p) job = Some 1)
  /\ NoDup (jobs p)
  /\ has_reached_max_attempt p = false
  /\ stream_slice p = _slice.
Proof.
  intros p.
  assert (Hget : forall job, dict_get (_attempts_per_job p) job
                             = if in_dec (fun a b => decide (a = b)) job job_list
                               then Some 1 else None).
  { intros job. unfold p, AsyncPartition_init. simpl. rewrite dict_get_set_all. reflexivity. }
  split; [|split; [|split; [|split]]].
  - intros job. rewrite jobs_attempt, Hget.
    destruct (in_dec _ job job_list); split; intros Hx; eauto; try contradiction.
    destruct Hx as [c Hc]. discriminate.
  - intros job Hin. rewrite Hget. destruct (in_dec _ job job_list); [reflexivity|contradiction].
  - unfold jobs, p, AsyncPartition_init. simpl. apply dict_set_all_NoDup. apply NoDup_nil_2.
  - unfold has_reached_max_attempt.
    destruct (existsb _ _) eqn:Hex; [|reflexivity].
    apply existsb_exists in Hex as (c & Hin & Hc).
    assert (Hone : Forall (fun c => c = 1) (map snd (_attempts_per_job p))).
    { unfold p, AsyncPartition_init. simpl. apply dict_set_all_values; [reflexivity|constructor]. }
    rewrite Forall_forall in Hone. apply list_elem_of_In, Hone in Hin. subst c.
    discriminate.
  - reflexivity.
Qed.

(** X2.  [__init__] gives a well-formed partition and [replace_job] keeps a
    partition well formed, whether it raises or not: no job is ever twice in
    the mapping and no attempt count leaves the range from 1 to 3. *)
Theorem partition_stays_well_formed (p : AsyncPartition) (job_to_replace : AsyncJob)
    (new_jobs job_list : list AsyncJob) (_slice : StreamSlice) :
  well_formed (AsyncPartition_init job_list _slice)
  /\ (well_formed p -> well_formed (snd (replace_job p job_to_replace new_jobs))).
Proof.
  split.
  - split.
    + unfold jobs, AsyncPartition_init. simpl. apply dict_set_all_NoDup, NoDup_nil_2.
    + unfold AsyncPartition_init. simpl. apply dict_set_all_values; [|constructor].
      unfold _MAX_NUMBER_OF_ATTEMPTS. lia.
  - intros [Hnd Hall]. unfold jobs in Hnd. unfold replace_job.
    destruct (dict_get (_attempts_per_job p) job_to_replace) as [c|] eqn:Hget.
    + destruct (Nat.leb_spec _MAX_NUMBER_OF_ATTEMPTS c) as [Hle|Hlt]; simpl.
      * split; [apply dict_del_NoDup, Hnd | apply dict_del_values, Hall].
      * split.
        -- unfold jobs. simpl. apply dict_set_all_NoDup, dict_del_NoDup, Hnd.
        -- simpl. apply dict_set_all_values; [|apply dict_del_values, Hall].
           apply dict_get_In in Hget. rewrite Forall_forall in Hall.
           apply list_elem_of_In, Hall in Hget. lia.
    + simpl. split; [apply dict_del_NoDup, Hnd | apply dict_del_values, Hall].
Qed.

(** X3.  [has_reached_max_attempt] is the test the caller needs before a
    replacement: on a partition with no job twice, it is true exactly when
    [replace_job] would reject some job of the partition with the max-attempt
    error; when it is false, replacing any job of the partition goes
    through. *)
Theorem has_reached_max_attempt_guards_replace_job (p : AsyncPartition)
    (new_jobs : list AsyncJob) :
  NoDup (jobs p) ->
  (has_reached_max_attempt p = true
   <-> exists job,
         In job (jobs p)
         /\ fst (replace_job p job new_jobs)
            = inl (ValueError ("Max attempt reached for job in partition " ++ _stream_slice p)))
  /\ (has_reached_max_attempt p = false ->
      forall job, In job (jobs p) -> fst (replace_job p job new_jobs) = inr tt).
Proof.
  intros Hnd. split.
  - split.
    + intros Hmax. unfold has_reached_max_attempt in Hmax.
      apply existsb_exists in Hmax as (c & Hin & Hc). apply Nat.leb_le in Hc.
      destruct (dict_value_has_key _ c Hnd Hin) as [job Hjob].
      exists job. split; [apply jobs_attempt; eauto|].
      unfold replace_job. rewrite Hjob.
      destruct (Nat.leb_spec _MAX_NUMBER_OF_ATTEMPTS c); [reflexivity | lia].
    + intros (job & Hin & Hraise). unfold replace_job in Hraise.
      destruct (dict_get (_attempts_per_job p) job) as [c|] eqn:Hget; [|discriminate].
      destruct (Nat.leb_spec _MAX_NUMBER_OF_ATTEMPTS c) as [Hle|Hlt]; [|discriminate].
      unfold has_reached_max_attempt. apply existsb_exists. exists c.
      split; [eapply dict_get_In, Hget | now apply Nat.leb_le].
  - intros Hmax job Hin. apply jobs_attempt in Hin as [c Hc].
    pose proof (not_max_attempt_lt p job c Hmax Hc) as Hlt.
    unfold replace_job. rewrite Hc.
    destruct (Nat.leb_spec _MAX_NUMBER_OF_ATTEMPTS c); [lia | reflexivity].
Qed.

Lemma has_reached_max_attempt_guards_replace_job_witness :
  let p := mkPartition [(first_job, 3); (mkJob 1 "job_I" "s1", 1)] "s1" in
  has_reached_max_attempt p = true
  /\ exists job, In job (jobs p)
       /\ fst (replace_job p job [])
          = inl (ValueError ("Max attempt reached for job in partition " ++ _stream_slice p)).
Proof.
  intros p.
  assert (Hnd : NoDup (jobs p)).
  { apply NoDup_ListNoDup. repeat constructor; simpl; intuition discriminate. }
  destruct (has_reached_max_attempt_guards_replace_job p [] Hnd) as [[Hto _] _].
  split; [reflexivity|]. apply Hto. reflexivity.
Defined.

(** X4.  Replacing a job the partition does not hold raises "Could not find
    job to replace" and leaves the partition as it was. *)
Theorem replace_job_of_absent_job_changes_nothing (p : AsyncPartition)
    (job_to_replace : AsyncJob) (new_jobs : list AsyncJob) :
  ~ In job_to_replace (jobs p) ->
  replace_job p job_to_replace new_jobs
  = (inl (ValueError "Could not find job to replace"), p).
Proof.
  intros Habsent. unfold replace_job.
  assert (Hget : dict_get (_attempts_per_job p) job_to_replace = None).
  { apply dict_get_None. exact Habsent. }
  rewrite Hget, dict_del_absent by exact Habsent. destruct p; reflexivity.
Qed.

Lemma replace_job_of_absent_job_changes_nothing_witness :
  let p := mkPartition [(first_job, 1)] "s1" in
  replace_job p (mkJob 7 "job_7" "s1") [mkJob 8 "job_8" "s1"]
  = (inl (ValueError "Could not find job to replace"), p).
Proof.
  intros p. apply (replace_job_of_absent_job_changes_nothing p).
  simpl. intros [Heq|[]]. discriminate.
Defined.

(** X5.  Whatever the jobs of a partition, its status is FAILED exactly when
    some job is FAILED (however many are RUNNING or COMPLETED), TIMED_OUT
    exactly when some job is TIMED_OUT and none is FAILED, and RUNNING exactly
    when no job is FAILED or TIMED_OUT and the partition has no job or has a
    RUNNING one. *)
Theorem status_of_partition_by_cases (job_status : AsyncJob -> AsyncJobStatus)
    (p : AsyncPartition) :
  (status job_status p = FAILED <-> Exists (fun job => job_status job = FAILED) (jobs p))
  /\ (status job_status p = TIMED_OUT
      <-> Exists (fun job => job_status job = TIMED_OUT) (jobs p)
          /\ ~ Exists (fun job => job_status job = FAILED) (jobs p))
  /\ (status job_status p = RUNNING
      <-> ~ Exists (fun job => job_status job = FAILED) (jobs p)
          /\ ~ Exists (fun job => job_status job = TIMED_OUT) (jobs p)
          /\ (jobs p = [] \/ Exists (fun job => job_status job = RUNNING) (jobs p))).
Proof.
  assert (Hc : (list_to_set (map job_status (jobs p)) : gset AsyncJobStatus) = {[ COMPLETED ]}
               <-> jobs p <> [] /\ Forall (fun job => job_status job = COMPLETED) (jobs p))
    by apply statuses_all_completed.
  assert (Hf := elem_of_statuses job_status (jobs p) FAILED).
  assert (Ht := elem_of_statuses job_status (jobs p) TIMED_OUT).
  assert (Hclash : forall s, s <> COMPLETED ->
            Forall (fun job => job_status job = COMPLETED) (jobs p) ->
            ~ Exists (fun job => job_status job = s) (jobs p)).
  { intros s Hs Hall Hex. apply Exists_exists in Hex as (job & Hin & Hjob).
    rewrite Forall_forall in Hall. specialize (Hall job Hin). congruence. }
  assert (Hrest : ~ Forall (fun job => job_status job = COMPLETED) (jobs p) ->
            ~ Exists (fun job => job_status job = FAILED) (jobs p) ->
            ~ Exists (fun job => job_status job = TIMED_OUT) (jobs p) ->
            Exists (fun job => job_status job = RUNNING) (jobs p)).
  { intros Hn Hnf Hnt. apply not_Forall_Exists in Hn; [|intros job; apply _].
    apply Exists_exists in Hn as (job & Hin & Hjob).
    apply Exists_exists. exists job. split; [exact Hin|].
    destruct (job_status job) eqn:Hs; try congruence.
    - exfalso. apply Hnf, Exists_exists. eauto.
    - exfalso. apply Hnt, Exists_exists. eauto. }
  unfold status.
  rewrite (bool_decide_ext _ _ Hf), (bool_decide_ext _ _ Ht). clear Hf Ht.
  destruct (bool_decide_reflect
              ((list_to_set (map job_status (jobs p)) : gset AsyncJobStatus) = {[ COMPLETED ]}))
    as [Hall|Hnall].
  - apply Hc in Hall as [Hne Hall].
    pose proof (Hclash FAILED ltac:(discriminate) Hall) as HnF.
    pose proof (Hclash TIMED_OUT ltac:(discriminate) Hall) as HnT.
    pose proof (Hclash RUNNING ltac:(discriminate) Hall) as HnR.
    split; [|split]; split; try discriminate; tauto.
  - assert (Hnot : jobs p = [] \/ ~ Forall (fun job => job_status job = COMPLETED) (jobs p)).
    { destruct (jobs p) as [|job l] eqn:Hjobs; [now left|]. right.
      intros Hall. apply Hnall, Hc. split; [discriminate | exact Hall]. }
    assert (Hempty : jobs p = [] -> forall s, ~ Exists (fun job => job_status job = s) (jobs p)).
    { intros -> s Hex. inversion Hex. }
    destruct (bool_decide_reflect (Exists (fun job => job_status job = FAILED) (jobs p)))
      as [HF|HnF].
    + split; [|split]; split; try discriminate; tauto.
    + destruct (bool_decide_reflect (Exists (fun job => job_status job = TIMED_OUT) (jobs p)))
        as [HT|HnT].
      * split; [|split]; split; try discriminate; tauto.
      * destruct Hnot as [Hnil|Hn].
        -- split; [|split]; split; try discriminate; tauto.
        -- pose proof (Hrest Hn HnF HnT) as HR.
           split; [|split]; split; try discriminate; tauto.
Qed.

(** * What every pass of the loop preserves *)

Section Respects.
Context {W : Type} `{Collaborators W}.
Implicit Types (o : AsyncJobOrchestrator W).

(** A relation between states that holds across each elementary step of the
    orchestrator holds across its methods. *)
Variable R : AsyncJobOrchestrator W -> AsyncJobOrchestrator W -> Prop.
Hypothesis R_refl : forall o, R o o.
Hypothesis R_trans : forall o1 o2 o3, R o1 o2 -> R o2 o3 -> R o1 o3.
Hypothesis R_call : forall o w c, R o (log_call c (set_collaborators w o)).
Hypothesis R_iterator : forall o it, R o (set_slice_iterator it o).
Hypothesis R_partitions : forall o ps, R o (set_running_partitions ps o).
Hypothesis R_started : forall o, R o (set_has_started_a_job true o).
Hypothesis R_consumed : forall o, R o (set_has_consumed_every_slice true o).
Hypothesis R_recorded :
  forall o e, R o (set_non_breaking_exceptions (_non_breaking_exceptions o ++ [e]) o).
Hypothesis R_yield : forall o partition, R o (snd (yield partition o)).

Section Generic.
Context {S : Type} (view : S -> AsyncJobOrchestrator W).

Lemma respects_ret {A : Type} (a : A) : respects R view (ret a).
Proof. intros s. apply R_refl. Qed.

Lemma respects_raise {A : Type} (e : Exception) : respects R view (raise e : M S A).
Proof. intros s. apply R_refl. Qed.

Lemma respects_get : respects R view get.
Proof. intros s. apply R_refl. Qed.

Lemma respects_bind {A B : Type} (m : M S A) (k : A -> M S B) :
  respects R view m -> (forall a, respects R view (k a)) -> respects R view (bind m k).
Proof.
  intros Hm Hk s. unfold bind. specialize (Hm s).
  destruct (m s) as [[e|a] s1]; simpl in *; [exact Hm|].
  eapply R_trans; [exact Hm | apply Hk].
Qed.

Lemma respects_try_except {A : Type} (body : M S A) (handler : Exception -> M S A) :
  respects R view body -> (forall e, respects R view (handler e)) ->
  respects R view (try_except body handler).
Proof.
  intros Hb Hh s. unfold try_except. specialize (Hb s).
  destruct (body s) as [[e|a] s1]; simpl in *; [|exact Hb].
  eapply R_trans; [exact Hb | apply Hh].
Qed.

Lemma respects_for_each {A : Type} (l : list A) (body : A -> M S unit) :
  (forall a, respects R view (body a)) -> respects R view (for_each l body).
Proof.
  intros Hbody. induction l as [|a l IH]; simpl.
  - apply respects_ret.
  - apply respects_bind; [apply Hbody | intros _; exact IH].
Qed.
End Generic.

Local Abbreviation respects_self := (respects R (fun o : AsyncJobOrchestrator W => o)).

Lemma respects_start (_slice : StreamSlice) : respects_self (start _slice).
Proof. intros o. unfold start. destruct (repository_start _ _). apply R_call. Qed.

Lemma respects_abort (job : AsyncJob) : respects_self (abort job).
Proof. intros o. unfold abort. destruct (repository_abort _ _). apply R_call. Qed.

Lemma respects_update_jobs_status (l : list AsyncJob) : respects_self (update_jobs_status l).
Proof.
  intros o. unfold update_jobs_status. destruct (repository_update_jobs_status _ _).
  apply R_call.
Qed.

Lemma respects_try_to_get_intent : respects_self try_to_get_intent.
Proof.
  intros o. unfold try_to_get_intent. destruct (tracker_try_to_get_intent _). apply R_call.
Qed.

Lemma respects_add_job (a b : string) : respects_self (add_job a b).
Proof. intros o. unfold add_job. destruct (tracker_add_job _ _ _). apply R_call. Qed.

Lemma respects_remove_job (job_id : string) : respects_self (remove_job job_id).
Proof. intros o. apply R_call. Qed.

Lemma respects_sleep (seconds : nat) : respects_self (sleep seconds).
Proof.
  intros o. unfold sleep, modify. simpl.
  replace (log_call (CallSleep seconds) o)
    with (log_call (CallSleep seconds) (set_collaborators (_collaborators o) o))
    by (destruct o; reflexivity).
  apply R_call.
Qed.

Lemma respects_start_job (_slice : StreamSlice) (previous_job_id : option string) :
  respects_self (_start_job _slice previous_job_id).
Proof.
  unfold _start_job. apply respects_bind.
  - unfold id_to_replace_of. destruct previous_job_id; [destruct (truthy _)|];
      auto using respects_ret, respects_try_to_get_intent.
  - intros id. apply respects_try_except.
    + apply respects_bind; [apply respects_start|]. intros job.
      apply respects_bind; [apply respects_add_job | intros _; apply respects_ret].
    + intros e. apply respects_bind; [apply respects_remove_job | intros _; apply respects_raise].
Qed.

Lemma respects_replace_failed_jobs (i : nat) : respects_self (_replace_failed_jobs i).
Proof.
  unfold _replace_failed_jobs. apply respects_bind; [apply respects_get|].
  intros o0. destruct (_running_partitions o0 !! i); [|apply respects_ret].
  apply respects_for_each. intros job.
  apply respects_bind; [apply respects_start_job|].
  intros new_job o. unfold partition_replace_job.
  destruct (_running_partitions o !! i) as [p|]; [|apply R_refl].
  destruct (replace_job p job [new_job]) as [r p']. apply R_partitions.
Qed.

Local Abbreviation respects_frame := (respects R self).

Lemma respects_on_self {A : Type} (m : M (AsyncJobOrchestrator W) A) :
  respects_self m -> respects_frame (on_self m).
Proof.
  intros Hm f. unfold on_self. specialize (Hm (self f)).
  destruct (m (self f)) as [r o1]. exact Hm.
Qed.

Lemma respects_admit_slices (slices : list StreamSlice) : respects_frame (admit_slices slices).
Proof.
  induction slices as [|s rest IH]; simpl.
  - apply respects_on_self. intros o. apply R_consumed.
  - apply respects_bind; [apply respects_on_self; intros o; apply R_iterator|]. intros _.
    apply respects_bind; [intros f; apply R_refl|]. intros _.
    apply respects_bind; [intros f; apply R_refl|]. intros _.
    apply respects_bind; [apply respects_on_self, respects_start_job|]. intros job.
    apply respects_bind; [apply respects_on_self; intros o; apply R_started|]. intros _.
    apply respects_bind; [apply respects_on_self; intros o; apply R_partitions|]. intros _.
    exact IH.
Qed.

Lemma respects_start_jobs : respects_self _start_jobs.
Proof.
  intros o. unfold _start_jobs.
  assert (Hbody : respects_frame start_jobs_body).
  { unfold start_jobs_body. apply respects_bind; [apply respects_get|]. intros f0.
    apply respects_bind.
    - apply respects_on_self, respects_for_each. intros i. apply respects_replace_failed_jobs.
    - intros _. apply respects_bind; [apply respects_get|]. intros f1.
      apply respects_admit_slices. }
  specialize (Hbody (mkFrame o false None)). simpl in Hbody.
  destruct (start_jobs_body (mkFrame o false None)) as [[e|[]] f]; simpl in *; [|exact Hbody].
  destruct e; try exact Hbody.
  destruct (at_least_one_slice_consumed_from_slice_iterator_during_current_iteration f);
    [|exact Hbody].
  destruct (_slice f); [|exact Hbody]. simpl.
  eapply R_trans; [exact Hbody | apply R_iterator].
Qed.

Lemma respects_abort_job (job : AsyncJob) (free_job_allocation : bool) :
  respects_self (_abort_job job free_job_allocation).
Proof.
  unfold _abort_job. apply respects_try_except; [|intros e; apply respects_ret].
  apply respects_bind; [apply respects_abort|]. intros _.
  destruct free_job_allocation; [apply respects_remove_job | apply respects_ret].
Qed.

Lemma respects_triage_partition (partition : AsyncPartition)
    (current_running_partitions : list AsyncPartition) :
  respects_self (triage_partition partition current_running_partitions).
Proof.
  unfold triage_partition. apply respects_bind; [intros o; apply R_refl|]. intros s.
  apply respects_bind.
  - destruct s.
    + apply respects_ret.
    + apply respects_bind; [apply respects_ret|]. intros _.
      apply respects_bind; [intros o; apply R_yield | intros _; apply respects_ret].
    + destruct (has_reached_max_attempt partition).
      * apply respects_bind.
        -- unfold _stop_partition. apply respects_for_each. intros job.
           apply respects_bind; [intros o; apply R_refl|]. intros st.
           destruct st; auto using respects_abort_job, respects_remove_job.
        -- intros _. apply respects_bind; [|intros _; apply respects_ret].
           unfold _process_partitions_with_errors.
           apply respects_bind; [apply respects_get | intros o0; apply respects_raise].
      * apply respects_bind; [|intros _; apply respects_ret].
        unfold _stop_timed_out_jobs. apply respects_for_each. intros job.
        apply respects_bind; [intros o; apply R_refl|]. intros st.
        destruct st; auto using respects_abort_job, respects_ret.
    + destruct (has_reached_max_attempt partition).
      * apply respects_bind.
        -- unfold _stop_partition. apply respects_for_each. intros job.
           apply respects_bind; [intros o; apply R_refl|]. intros st.
           destruct st; auto using respects_abort_job, respects_remove_job.
        -- intros _. apply respects_bind; [|intros _; apply respects_ret].
           unfold _process_partitions_with_errors.
           apply respects_bind; [apply respects_get | intros o0; apply respects_raise].
      * apply respects_bind; [|intros _; apply respects_ret].
        unfold _stop_timed_out_jobs. apply respects_for_each. intros job.
        apply respects_bind; [intros o; apply R_refl|]. intros st.
        destruct st; auto using respects_abort_job, respects_ret.
  - intros current. apply respects_bind; [|intros _; apply respects_ret].
    apply respects_for_each. intros job.
    apply respects_bind; [intros o; apply R_refl|]. intros st.
    destruct st; auto using respects_remove_job, respects_ret.
Qed.

Lemma respects_triage_partitions (partitions current : list AsyncPartition) :
  respects_self (triage_partitions partitions current).
Proof.
  revert current. induction partitions as [|p rest IH]; intros current; simpl.
  - apply respects_ret.
  - apply respects_bind; [apply respects_triage_partition | intros c; apply IH].
Qed.

Lemma respects_loop_body : respects_self loop_body.
Proof.
  unfold loop_body. apply respects_bind.
  - apply respects_try_except; [apply respects_start_jobs|]. intros e.
    apply respects_bind; [apply respects_get|]. intros o0.
    destruct (_exceptions_to_break_on o0 e).
    + apply respects_bind; [|intros _; apply respects_raise].
      unfold _abort_all_running_jobs, _get_running_jobs, _get_timeout_jobs, jobs_with_status.
      apply respects_bind.
      { apply respects_bind; [apply respects_get | intros o1; apply respects_ret]. }
      intros running. apply respects_bind.
      { apply respects_bind; [apply respects_get | intros o1; apply respects_ret]. }
      intros timed_out. apply respects_bind.
      { apply respects_for_each. intros job. apply respects_abort. }
      intros _ o. apply R_partitions.
    + intros o. apply R_recorded.
  - intros _. apply respects_bind; [apply respects_get|]. intros o0.
    destruct (termination_check o0); [apply respects_ret|].
    apply respects_bind.
    { unfold _update_jobs_status, _get_running_jobs, jobs_with_status.
      apply respects_bind.
      { apply respects_bind; [apply respects_get | intros o1; apply respects_ret]. }
      intros [|job l]; [apply respects_ret | apply respects_update_jobs_status]. }
    intros _. apply respects_bind.
    { unfold _process_running_partitions_and_yield_completed_ones.
      apply respects_bind; [apply respects_get|]. intros o1.
      apply respects_bind; [apply respects_triage_partitions|].
      intros current o. apply R_partitions. }
    intros _. apply respects_bind; [|intros _; apply respects_ret].
    unfold _wait_on_status_update. apply respects_bind; [apply respects_get|]. intros o1.
    destruct (_running_partitions o1); [apply respects_ret | apply respects_sleep].
Qed.

Lemma respects_while_true (fuel : nat) : respects_self (while_true fuel).
Proof.
  induction fuel as [|fuel IH]; simpl.
  - apply respects_ret.
  - apply respects_bind; [apply respects_loop_body|].
    intros [|]; [apply respects_ret | exact IH].
Qed.
End Respects.

(** * The log is a faithful record of the calls *)

Section Faithful.
Context {W : Type} `{Collaborators W}.
Implicit Types (o : AsyncJobOrchestrator W).

Lemma faithful_log_refl o : faithful_log o o.
Proof. exists []. split; [now rewrite app_nil_r | reflexivity]. Qed.

Lemma faithful_log_trans o1 o2 o3 :
  faithful_log o1 o2 -> faithful_log o2 o3 -> faithful_log o1 o3.
Proof.
  intros (cs1 & H1 & E1) (cs2 & H2 & E2). exists (cs1 ++ cs2). split.
  - rewrite H2, H1, app_assoc. reflexivity.
  - exact (calls_effect_app _ _ _ _ _ E1 E2).
Qed.

(** The calls added to the log are the calls that were made. *)
Lemma faithful_log_calls o o' (cs : list Call) :
  faithful_log o o' -> calls o' = calls o ++ cs ->
  calls_effect cs (_collaborators o) (_collaborators o').
Proof.
  intros (cs' & H1 & E1) H2. rewrite H1 in H2. apply app_inv_head in H2. subst cs'.
  exact E1.
Qed.

Lemma faithful_log_same o o' :
  calls o' = calls o -> _collaborators o' = _collaborators o -> faithful_log o o'.
Proof.
  intros Hcalls Hw. exists []. rewrite app_nil_r. split; [exact Hcalls | exact Hw].
Qed.

Lemma faithful_log_call o (c : Call) (w : W) :
  call_effect c (_collaborators o) w -> faithful_log o (log_call c (set_collaborators w o)).
Proof.
  intros Hc. exists [c]. split; [reflexivity|]. simpl. exists w. split; [exact Hc | reflexivity].
Qed.

Local Abbreviation faithful := (respects faithful_log (fun o : AsyncJobOrchestrator W => o)).

Local Ltac faithful_step :=
  first [ apply (respects_bind faithful_log faithful_log_trans)
        | apply (respects_try_except faithful_log faithful_log_trans)
        | apply (respects_for_each faithful_log faithful_log_refl faithful_log_trans)
        | apply (respects_ret faithful_log faithful_log_refl)
        | apply (respects_raise faithful_log faithful_log_refl)
        | apply (respects_get faithful_log faithful_log_refl) ].

Lemma faithful_start (_slice : StreamSlice) : faithful (start _slice).
Proof.
  intros o. unfold start.
  destruct (repository_start _slice (_collaborators o)) as [r w] eqn:Hcall.
  apply faithful_log_call. exact Hcall.
Qed.

Lemma faithful_abort (job : AsyncJob) : faithful (abort job).
Proof.
  intros o. unfold abort.
  destruct (repository_abort job (_collaborators o)) as [r w] eqn:Hcall.
  apply faithful_log_call. exact Hcall.
Qed.

Lemma faithful_try_to_get_intent : faithful try_to_get_intent.
Proof.
  intros o. unfold try_to_get_intent.
  destruct (tracker_try_to_get_intent (_collaborators o)) as [r w] eqn:Hcall.
  apply faithful_log_call. exact Hcall.
Qed.

Lemma faithful_add_job (id_to_replace job_id : string) :
  faithful (add_job id_to_replace job_id).
Proof.
  intros o. unfold add_job.
  destruct (tracker_add_job id_to_replace job_id (_collaborators o)) as [r w] eqn:Hcall.
  apply faithful_log_call. exact Hcall.
Qed.

Lemma faithful_remove_job (job_id : string) : faithful (remove_job job_id).
Proof. intros o. unfold remove_job. apply faithful_log_call. reflexivity. Qed.

Lemma faithful_read_status (job : AsyncJob) : faithful (read_status job).
Proof. intros o. apply faithful_log_refl. Qed.

Lemma faithful_start_job (_slice : StreamSlice) (previous_job_id : option string) :
  faithful (_start_job _slice previous_job_id).
Proof.
  unfold _start_job. faithful_step.
  - unfold id_to_replace_of. destruct previous_job_id as [id|].
    + destruct (truthy (Some id)); [faithful_step | apply faithful_try_to_get_intent].
    + apply faithful_try_to_get_intent.
  - intros id. faithful_step.
    + faithful_step; [apply faithful_start|]. intros job.
      faithful_step; [apply faithful_add_job|]. intros _. faithful_step.
    + intros e. faithful_step; [apply faithful_remove_job|]. intros _. faithful_step.
Qed.

Lemma faithful_abort_job (job : AsyncJob) (free_job_allocation : bool) :
  faithful (_abort_job job free_job_allocation).
Proof.
  unfold _abort_job. faithful_step.
  - faithful_step; [apply faithful_abort|]. intros _.
    destruct free_job_allocation; [apply faithful_remove_job | faithful_step].
  - intros e. faithful_step.
Qed.

Lemma faithful_triage_partition (partition : AsyncPartition)
    (current_running_partitions : list AsyncPartition) :
  faithful (triage_partition partition current_running_partitions).
Proof.
  unfold triage_partition. faithful_step; [intros o; apply faithful_log_refl|]. intros s.
  faithful_step.
  - destruct s.
    + faithful_step.
    + faithful_step; [unfold _process_completed_partition; faithful_step|]. intros _.
      faithful_step; [|intros _; faithful_step].
      intros o. apply faithful_log_same; reflexivity.
    + destruct (has_reached_max_attempt partition).
      * faithful_step.
        { unfold _stop_partition. faithful_step. intros job.
          faithful_step; [apply faithful_read_status|]. intros s'.
          destruct s'; first [apply faithful_abort_job | apply faithful_remove_job]. }
        intros _. faithful_step; [|intros _; faithful_step].
        unfold _process_partitions_with_errors. faithful_step; [faithful_step|].
        intros o. faithful_step.
      * faithful_step; [|intros _; faithful_step].
        unfold _stop_timed_out_jobs. faithful_step. intros job.
        faithful_step; [apply faithful_read_status|]. intros s'.
        destruct s'; first [apply faithful_abort_job | faithful_step].
    + destruct (has_reached_max_attempt partition).
      * faithful_step.
        { unfold _stop_partition. faithful_step. intros job.
          faithful_step; [apply faithful_read_status|]. intros s'.
          destruct s'; first [apply faithful_abort_job | apply faithful_remove_job]. }
        intros _. faithful_step; [|intros _; faithful_step].
        unfold _process_partitions_with_errors. faithful_step; [faithful_step|].
        intros o. faithful_step.
      * faithful_step; [|intros _; faithful_step].
        unfold _stop_timed_out_jobs. faithful_step. intros job.
        faithful_step; [apply faithful_read_status|]. intros s'.
        destruct s'; first [apply faithful_abort_job | faithful_step].
  - intros current. faithful_step; [|intros _; faithful_step].
    faithful_step. intros job. faithful_step; [apply faithful_read_status|]. intros s'.
    destruct s'; first [apply faithful_remove_job | faithful_step].
Qed.

Lemma faithful_partition_replace_job (i : nat) (job : AsyncJob) (new_jobs : list AsyncJob) :
  faithful (partition_replace_job i job new_jobs).
Proof.
  intros o. unfold partition_replace_job.
  destruct (_running_partitions o !! i) as [partition|]; [|apply faithful_log_refl].
  destruct (replace_job partition job new_jobs) as [r partition'].
  apply faithful_log_same; reflexivity.
Qed.

Lemma faithful_replace_failed_jobs (i : nat) : faithful (_replace_failed_jobs i).
Proof.
  unfold _replace_failed_jobs. faithful_step; [faithful_step|]. intros o.
  destruct (_running_partitions o !! i) as [partition|]; [|faithful_step].
  faithful_step. intros job. faithful_step; [apply faithful_start_job|].
  intros new_job. apply faithful_partition_replace_job.
Qed.
End Faithful.

(** ** Partitions to retry *)

(** C5 (as amended).  In the triage, a partition whose status is FAILED or
    TIMED_OUT and which has not reached the maximum number of attempts has its
    TIMED_OUT jobs aborted by the repository and nothing else: no slot of
    theirs is released (the only slots released are those of its COMPLETED
    jobs), and it is put at the front of the partitions kept for the next
    iteration.  In the retry pass of that iteration, where the statuses are
    what they were, and provided the remote ids of its jobs are not empty,
    the remote start and the binding go through and the started jobs are new
    objects, each FAILED or TIMED_OUT job is started again by the repository
    with its parameters and the tracker binds the new job to the slot held
    under the replaced job's remote id, no slot being reserved; in the
    partition the replaced job is gone and the new job has its attempt count
    plus one.  The collaborators are left as these calls, with the outcomes
    logged, leave them. *)
Theorem retriable_partition_is_kept_and_retried {W : Type} `{Collaborators W}
    (partition : AsyncPartition) (current_running_partitions : list AsyncPartition)
    (o : AsyncJobOrchestrator W) :
  status (job_status (_collaborators o)) partition = FAILED
  \/ status (job_status (_collaborators o)) partition = TIMED_OUT ->
  has_reached_max_attempt partition = false ->
  (exists aborts o',
     triage_partition partition current_running_partitions o
     = (inr (partition :: current_running_partitions), o')
     /\ Forall2 (fun job cs => stop_timed_out_calls (job_status (_collaborators o) job) job cs)
                (jobs partition) aborts
     /\ calls o' = calls o ++ concat aborts
                     ++ release_completed_calls (job_status (_collaborators o)) partition
     /\ yielded o' = yielded o
     /\ job_status (_collaborators o') = job_status (_collaborators o)
     /\ calls_effect (concat aborts
                      ++ release_completed_calls (job_status (_collaborators o)) partition)
                     (_collaborators o) (_collaborators o'))
  /\ (forall (reliable : W -> Prop) (o2 : AsyncJobOrchestrator W) (i : nat),
        _running_partitions o2 !! i = Some partition ->
        job_status (_collaborators o2) = job_status (_collaborators o) ->
        NoDup (jobs partition) ->
        (forall job, In job (jobs partition) -> api_job_id job <> "") ->
        starts_new_jobs reliable (jobs partition) ->
        reliable (_collaborators o2) ->
        let replaced := jobs_to_replace (job_status (_collaborators o)) partition in
        exists new_jobs o3 partition',
          _replace_failed_jobs i o2 = (inr tt, o3)
          /\ length new_jobs = length replaced
          /\ calls o3 = calls o2 ++ retry_calls replaced new_jobs
          /\ (forall outcome, ~ In (CallTryToGetIntent outcome) (retry_calls replaced new_jobs))
          /\ _running_partitions o3 = <[ i := partition' ]> (_running_partitions o2)
          /\ (forall job, In job replaced -> ~ In job (jobs partition'))
          /\ (forall k job new_job c,
                replaced !! k = Some job -> new_jobs !! k = Some new_job ->
                dict_get (_attempts_per_job partition) job = Some c ->
                (forall k', k < k' -> new_jobs !! k' <> Some new_job) ->
                dict_get (_attempts_per_job partition') new_job = Some (c + 1))
          /\ (forall job, In job (jobs partition) -> ~ In job replaced ->
                dict_get (_attempts_per_job partition') job
                = dict_get (_attempts_per_job partition) job)
          /\ calls_effect (retry_calls replaced new_jobs)
                          (_collaborators o2) (_collaborators o3)).
Proof.
  intros Hstatus Hmax. split.
  - destruct (triage_retriable_partition partition current_running_partitions o Hstatus Hmax)
      as (aborts & o' & Hrun & Hall & Hmade & Hst).
    exists aborts, o'. split; [exact Hrun|]. split; [exact Hall|].
    split; [exact (only_calls_made_calls _ _ _ Hmade)|].
    split; [exact (only_calls_made_yielded _ _ _ Hmade)|]. split; [exact Hst|].
    apply faithful_log_calls; [|exact (only_calls_made_calls _ _ _ Hmade)].
    pose proof (faithful_triage_partition partition current_running_partitions o) as Hlog.
    rewrite Hrun in Hlog. exact Hlog.
  - intros reliable o2 i Hi Hst Hnodup Hids Hremote Hrel replaced.
    assert (Hsub : forall job, In job replaced -> In job (jobs partition)).
    { intros job Hin. unfold replaced, jobs_to_replace in Hin.
      apply filter_In in Hin. tauto. }
    destruct (retry_loop reliable (jobs partition) Hremote i replaced o2 partition)
      as (new_jobs & o3 & partition' & Hrun & Hlen & Hcalls & Hparts & Hfresh
          & Hgone & Hcount & Hother).
    + exact Hi.
    + exact Hrel.
    + apply NoDup_ListNoDup. apply List.NoDup_filter. apply NoDup_ListNoDup. exact Hnodup.
    + exact Hsub.
    + intros job Hin. apply Hids, Hsub, Hin.
    + intros job Hin. apply Hsub, jobs_attempt in Hin as [c Hc].
      exists c. split; [exact Hc|]. eapply not_max_attempt_lt; eassumption.
    + assert (Hretry : _replace_failed_jobs i o2 = (inr tt, o3)).
      { unfold _replace_failed_jobs, bind at 1, get at 1. rewrite Hi, Hst. exact Hrun. }
      exists new_jobs, o3, partition'. split; [exact Hretry|].
      split; [exact Hlen|]. split; [exact Hcalls|].
      split; [intros outcome; apply retry_calls_reserve_nothing|].
      split; [exact Hparts|]. split; [exact Hgone|]. split; [exact Hcount|].
      split.
      { intros job Hin Hnot. apply Hother; [exact Hnot|].
        intros Hnew. rewrite Forall_forall in Hfresh.
        apply (Hfresh job); [apply list_elem_of_In; exact Hnew | exact Hin]. }
      apply faithful_log_calls; [|exact Hcalls].
      pose proof (faithful_replace_failed_jobs i o2) as Hlog.
      rewrite Hretry in Hlog. exact Hlog.
Qed.

(** With a job whose remote id is the empty string, the retry pass does not
    reuse the slot of the job it replaces: [if previous_job_id] fails for the
    empty string, a new slot is reserved and the replaced job's slot stays
    held. *)
Lemma retry_of_job_with_empty_id_reserves_a_slot :
  let job := mkJob 0 "" "s1" in
  let partition := mkPartition [(job, 1)] "s1" in
  let w := mkRemote (mkTracker 2 [""] 0) 1 [(0, FAILED)] (fun _ => None) (fun _ => None)
             (fun _ => FAILED) in
  let o := mkOrchestrator w [] [partition] (fun _ => false) true true [] [] [] in
  status (job_status (_collaborators o)) partition = FAILED
  /\ has_reached_max_attempt partition = false
  /\ fst (_replace_failed_jobs 0 o) = inr tt
  /\ calls (snd (_replace_failed_jobs 0 o))
     = [CallTryToGetIntent (inr "intent_");
        CallStart "s1" (inr (mkJob 1 "job_I" "s1"));
        CallAddJob "intent_" "job_I" (inr tt)]
  /\ _jobs (tracker (_collaborators (snd (_replace_failed_jobs 0 o)))) = [""; "job_I"].
Proof. vm_compute. repeat split; reflexivity. Qed.

Lemma retriable_partition_is_kept_and_retried_witness :
  let partition := mkPartition [(first_job, 1)] "s1" in
  let o := tracking TIMED_OUT partition in
  (exists o', triage_partition partition [] o = (inr [partition], o'))
  /\ (exists new_jobs o3,
        _replace_failed_jobs 0 o = (inr tt, o3)
        /\ calls o3 = calls o ++ retry_calls [first_job] new_jobs
        /\ calls_effect (retry_calls [first_job] new_jobs)
                        (_collaborators o) (_collaborators o3)).
Proof.
  intros partition o.
  destruct (retriable_partition_is_kept_and_retried partition [] o) as [Htriage Hretry].
  - right. vm_compute. reflexivity.
  - reflexivity.
  - split.
    + destruct Htriage as (aborts & o' & Hrun & _). exists o'. exact Hrun.
    + destruct (Hretry (reliable_remote 1) o 0)
        as (new_jobs & o3 & partition' & Hrun & _ & Hcalls & _ & _ & _ & _ & _ & Heffect).
      * reflexivity.
      * reflexivity.
      * apply NoDup_cons. split; [apply not_elem_of_nil | apply NoDup_nil_2].
      * intros job [<-|[]]. discriminate.
      * apply reliable_remote_starts_new_jobs. intros job [<-|[]]. simpl. lia.
      * split; [reflexivity | simpl; lia].
      * exists new_jobs, o3. split; [exact Hrun|]. split; [exact Hcalls | exact Heffect].
Defined.


Section Grows.
Context {W : Type} `{Collaborators W}.
Implicit Types (o : AsyncJobOrchestrator W).

Lemma grows_refl o : grows o o.
Proof.
  repeat split; auto; exists []; now rewrite app_nil_r.
Qed.

Lemma grows_trans o1 o2 o3 : grows o1 o2 -> grows o2 o3 -> grows o1 o3.
Proof.
  intros (Hs & Hc & Hb & [es He] & [cs Hcs] & [ps Hps])
         (Hs' & Hc' & Hb' & [es' He'] & [cs' Hcs'] & [ps' Hps']).
  split; [auto|]. split; [auto|]. split; [congruence|].
  split; [exists (es ++ es'); rewrite He', He, app_assoc; reflexivity|].
  split; [exists (cs ++ cs'); rewrite Hcs', Hcs, app_assoc; reflexivity|].
  exists (ps ++ ps'). rewrite Hps', Hps, app_assoc. reflexivity.
Qed.

Lemma grows_loop_body o : grows o (snd (loop_body o)).
Proof.
  apply (respects_loop_body grows grows_refl grows_trans); clear o;
    intros; unfold grows; simpl; repeat split; auto;
    first [exists []; now rewrite app_nil_r | eexists; reflexivity].
Qed.

Lemma grows_while_true (fuel : nat) o : grows o (snd (while_true fuel o)).
Proof.
  revert o. induction fuel as [|fuel IH]; intros o; simpl.
  - apply grows_refl.
  - unfold bind. pose proof (grows_loop_body o) as Hbody.
    destruct (loop_body o) as [[e|[|]] o1]; simpl in *; try exact Hbody.
    eapply grows_trans; [exact Hbody | apply IH].
Qed.

Lemma create_and_get_completed_partitions_state (fuel : nat) o :
  snd (create_and_get_completed_partitions fuel o) = snd (while_true fuel o).
Proof.
  unfold create_and_get_completed_partitions, bind.
  destruct (while_true fuel o) as [[e|[[]|]] o1]; simpl; try reflexivity.
  unfold get. destruct (_non_breaking_exceptions o1); reflexivity.
Qed.
End Grows.

(** X6.  A run never undoes its bookkeeping, however many passes it makes and
    however it ends: [_has_started_a_job] and [_has_consumed_every_slice],
    once set, stay set, the exceptions to break on stay the same, and the
    non-breaking exceptions recorded are kept, in order, new ones being added
    after them. *)
Theorem run_never_undoes_its_bookkeeping {W : Type} `{Collaborators W}
    (fuel : nat) (o : AsyncJobOrchestrator W) :
  grows o (snd (create_and_get_completed_partitions fuel o)).
Proof.
  rewrite create_and_get_completed_partitions_state. apply grows_while_true.
Qed.

(** X7.  For an orchestrator made by [__init__], whatever the collaborators
    do and after any number of passes, [_has_consumed_every_slice] is set, so
    that the termination check holds exactly when no partition is tracked. *)
Theorem termination_check_is_no_partition_tracked {W : Type} `{Collaborators W}
    (w : W) (slices : list StreamSlice) (exceptions_to_break_on : Exception -> bool)
    (fuel : nat) :
  let o' := snd (while_true fuel (orchestrator w slices exceptions_to_break_on)) in
  _has_consumed_every_slice o' = true
  /\ termination_check o' = bool_decide (_running_partitions o' = []).
Proof.
  intros o'.
  assert (Hflag : _has_consumed_every_slice o' = true).
  { destruct (grows_while_true fuel (orchestrator w slices exceptions_to_break_on))
      as (_ & Hkeep & _).
    apply Hkeep. unfold orchestrator. rewrite orchestrator_init. reflexivity. }
  split; [exact Hflag|].
  unfold termination_check. rewrite Hflag, orb_true_r. reflexivity.
Qed.

(** X8.  A run that has recorded a non-breaking exception cannot end
    normally: when the loop ends, the run raises the error of the incomplete
    run, which carries every exception recorded; it returns normally only
    with none recorded. *)
Theorem recorded_exception_fails_the_run {W : Type} `{Collaborators W}
    (fuel : nat) (o : AsyncJobOrchestrator W) :
  let run := create_and_get_completed_partitions fuel o in
  (fst run = inr (Some tt) ->
   _non_breaking_exceptions o = [] /\ _non_breaking_exceptions (snd run) = [])
  /\ (fst (while_true fuel o) = inr (Some tt) ->
      _non_breaking_exceptions (snd run) <> [] ->
      fst run = inl (AirbyteTracedException
                       (IncompleteRun (_non_breaking_exceptions (snd run))) config_error)
      /\ exists es, _non_breaking_exceptions (snd run) = _non_breaking_exceptions o ++ es).
Proof.
  intros run.
  destruct (grows_while_true fuel o) as (_ & _ & _ & [es Hes] & _).
  subst run. unfold create_and_get_completed_partitions, bind.
  destruct (while_true fuel o) as [[e|[[]|]] o1]; simpl in *.
  - split; [discriminate|]. intros Hx. discriminate.
  - unfold get. destruct (_non_breaking_exceptions o1) as [|e1 l] eqn:Hrec; simpl.
    + split; [|intros _ Hne; congruence].
      intros _. split; [|exact Hrec].
      destruct (_non_breaking_exceptions o); [reflexivity | discriminate].
    + split; [discriminate|]. intros _ _. rewrite Hrec.
      split; [reflexivity | exists es; exact Hes].
  - split; [discriminate|]. intros Hx. discriminate.
Qed.

(** * The triage pass as a whole *)

Section TriagePass.
Context {W : Type} `{Collaborators W}.
Implicit Types (o : AsyncJobOrchestrator W).

Lemma made_calls_and_yielded_of_calls o o' cs :
  only_calls_made o o' cs -> made_calls_and_yielded o o' cs [].
Proof.
  unfold only_calls_made, made_calls_and_yielded. intros Hmade.
  rewrite app_nil_r. exact Hmade.
Qed.

Lemma made_calls_and_yielded_trans o1 o2 o3 cs1 cs2 ps1 ps2 :
  made_calls_and_yielded o1 o2 cs1 ps1 -> made_calls_and_yielded o2 o3 cs2 ps2 ->
  made_calls_and_yielded o1 o3 (cs1 ++ cs2) (ps1 ++ ps2).
Proof.
  unfold made_calls_and_yielded. intros H12 H23. rewrite H23. rewrite H12. simpl.
  rewrite !app_assoc. reflexivity.
Qed.

Lemma triage_completed_partition (partition : AsyncPartition)
    (current_running_partitions : list AsyncPartition) o :
  status (job_status (_collaborators o)) partition = COMPLETED ->
  exists o',
    triage_partition partition current_running_partitions o
    = (inr current_running_partitions, o')
    /\ made_calls_and_yielded o o'
         (map (fun job => CallRemoveJob (api_job_id job)) (jobs partition)) [partition]
    /\ job_status (_collaborators o') = job_status (_collaborators o).
Proof.
  intros Hstatus.
  set (o1 := snd (yield partition o)).
  destruct (release_completed_jobs_calls (jobs partition) o1) as (o' & Hrun & Hmade & Hst).
  exists o'. split; [|split].
  - assert (Hyield : (_process_completed_partition partition ;;
                      yield partition ;; ret current_running_partitions) o
                     = (inr current_running_partitions, o1)) by reflexivity.
    unfold triage_partition. unfold bind at 1. unfold partition_status at 1.
    rewrite Hstatus. unfold bind at 1. rewrite Hyield. unfold bind at 1.
    rewrite Hrun. reflexivity.
  - assert (Hall : Forall (fun job => job_status (_collaborators o) job = COMPLETED)
                          (jobs partition)).
    { apply (statuses_all_completed (job_status (_collaborators o))).
      unfold status in Hstatus. case_bool_decide; [assumption|].
      repeat case_bool_decide; discriminate. }
    assert (Hcalls : flat_map (fun job => match job_status (_collaborators o1) job with
                                          | COMPLETED => [CallRemoveJob (api_job_id job)]
                                          | _ => []
                                          end) (jobs partition)
                     = map (fun job => CallRemoveJob (api_job_id job)) (jobs partition)).
    { clear - Hall. induction (jobs partition) as [|job l IH]; simpl; [reflexivity|].
      apply Forall_cons in Hall as [Hjob Hall]. simpl in Hjob |- *.
      change (_collaborators o1) with (_collaborators o).
      rewrite Hjob. simpl. f_equal. apply IH, Hall. }
    rewrite Hcalls in Hmade.
    assert (Hyield : made_calls_and_yielded o o1 [] [partition]).
    { unfold made_calls_and_yielded, o1, yield, modify. simpl. rewrite app_nil_r.
      reflexivity. }
    apply made_calls_and_yielded_of_calls in Hmade.
    exact (made_calls_and_yielded_trans _ _ _ _ _ _ _ Hyield Hmade).
  - rewrite Hst. reflexivity.
Qed.
Lemma triage_running_partition (partition : AsyncPartition)
    (current_running_partitions : list AsyncPartition) o :
  status (job_status (_collaborators o)) partition = RUNNING ->
  exists o',
    triage_partition partition current_running_partitions o
    = (inr (current_running_partitions ++ [partition]), o')
    /\ only_calls_made o o' (release_completed_calls (job_status (_collaborators o)) partition)
    /\ job_status (_collaborators o') = job_status (_collaborators o).
Proof.
  intros Hstatus.
  destruct (release_completed_jobs_calls (jobs partition) o) as (o' & Hrun & Hmade & Hst).
  exists o'. split; [|split; assumption].
  unfold triage_partition. unfold bind at 1. unfold partition_status at 1.
  rewrite Hstatus. unfold bind at 1. unfold ret at 1. unfold bind at 1.
  rewrite Hrun. reflexivity.
Qed.

Lemma is_exhausted_false (job_status : AsyncJob -> AsyncJobStatus) (p : AsyncPartition) :
  is_exhausted job_status p = false ->
  status job_status p = COMPLETED \/ status job_status p = RUNNING
  \/ ((status job_status p = FAILED \/ status job_status p = TIMED_OUT)
      /\ has_reached_max_attempt p = false).
Proof.
  unfold is_exhausted, is_completed, is_running.
  destruct (status job_status p); simpl; auto.
Qed.

(** What the triage of one partition that is not exhausted leaves: where the
    partition goes and what is yielded. *)
Lemma triage_live_partition (partition : AsyncPartition)
    (current_running_partitions : list AsyncPartition) o :
  is_exhausted (job_status (_collaborators o)) partition = false ->
  exists cs o',
    triage_partition partition current_running_partitions o
    = (inr (List.filter (is_retriable (job_status (_collaborators o))) [partition]
            ++ current_running_partitions
            ++ List.filter (is_running (job_status (_collaborators o))) [partition]), o')
    /\ made_calls_and_yielded o o' cs
         (List.filter (is_completed (job_status (_collaborators o))) [partition])
    /\ job_status (_collaborators o') = job_status (_collaborators o).
Proof.
  intros Hlive.
  destruct (is_exhausted_false _ _ Hlive) as [Hs | [Hs | [Hs Hmax]]].
  - destruct (triage_completed_partition partition current_running_partitions o Hs)
      as (o' & Hrun & Hmade & Hst).
    eexists _, o'. split; [|split; [|exact Hst]].
    + rewrite Hrun. unfold is_retriable, is_running, is_completed, List.filter.
      rewrite Hs. simpl. rewrite app_nil_r. reflexivity.
    + unfold is_completed, List.filter. rewrite Hs. simpl. exact Hmade.
  - destruct (triage_running_partition partition current_running_partitions o Hs)
      as (o' & Hrun & Hmade & Hst).
    eexists _, o'. split; [|split; [|exact Hst]].
    + rewrite Hrun. unfold is_retriable, is_running, is_completed, List.filter.
      rewrite Hs. simpl. reflexivity.
    + unfold is_completed, List.filter. rewrite Hs. simpl.
      apply made_calls_and_yielded_of_calls. exact Hmade.
  - destruct (triage_retriable_partition partition current_running_partitions o Hs Hmax)
      as (aborts & o' & Hrun & _ & Hmade & Hst).
    eexists _, o'. split; [|split; [|exact Hst]].
    + rewrite Hrun. unfold is_retriable, is_running, is_completed, List.filter.
      rewrite Hmax.
      destruct Hs as [Hs | Hs]; rewrite Hs; simpl; rewrite app_nil_r; reflexivity.
    + unfold is_completed, List.filter.
      destruct Hs as [Hs | Hs]; rewrite Hs; simpl;
        apply made_calls_and_yielded_of_calls; exact Hmade.
Qed.

Lemma made_calls_and_yielded_fields o o' cs ps :
  made_calls_and_yielded o o' cs ps ->
  _slice_iterator o' = _slice_iterator o
  /\ _running_partitions o' = _running_partitions o
  /\ _exceptions_to_break_on o' = _exceptions_to_break_on o
  /\ _has_started_a_job o' = _has_started_a_job o
  /\ _has_consumed_every_slice o' = _has_consumed_every_slice o
  /\ _non_breaking_exceptions o' = _non_breaking_exceptions o
  /\ calls o' = calls o ++ cs
  /\ yielded o' = yielded o ++ ps.
Proof. intros Hmade. rewrite Hmade. simpl. repeat split; reflexivity. Qed.

(** The triage of a list of partitions none of which is exhausted. *)
Lemma triage_live_partitions (partitions current_running_partitions : list AsyncPartition) o :
  Forall (fun partition => is_exhausted (job_status (_collaborators o)) partition = false)
         partitions ->
  exists cs o',
    triage_partitions partitions current_running_partitions o
    = (inr (rev (List.filter (is_retriable (job_status (_collaborators o))) partitions)
            ++ current_running_partitions
            ++ List.filter (is_running (job_status (_collaborators o))) partitions), o')
    /\ made_calls_and_yielded o o' cs
         (List.filter (is_completed (job_status (_collaborators o))) partitions)
    /\ job_status (_collaborators o') = job_status (_collaborators o).
Proof.
  revert current_running_partitions o.
  induction partitions as [|partition rest IH]; intros current o Hlive.
  - exists [], o. simpl. rewrite app_nil_r. split; [reflexivity|]. split; [|reflexivity].
    unfold made_calls_and_yielded. rewrite !app_nil_r. destruct o; reflexivity.
  - apply Forall_cons in Hlive as [Hp Hrest].
    destruct (triage_live_partition partition current o Hp) as (cs1 & o1 & Hrun & Hmade & Hst).
    rewrite <- Hst in Hrest.
    destruct (IH (List.filter (is_retriable (job_status (_collaborators o))) [partition]
                  ++ current
                  ++ List.filter (is_running (job_status (_collaborators o))) [partition])
                 o1 Hrest) as (cs2 & o' & Hrun' & Hmade' & Hst').
    exists (cs1 ++ cs2), o'. split; [|split; [|congruence]].
    + change (triage_partitions (partition :: rest) current o)
        with ((c <- triage_partition partition current ;; triage_partitions rest c) o).
      unfold bind at 1. rewrite Hrun, Hrun', Hst. f_equal. f_equal.
      change (partition :: rest) with ([partition] ++ rest).
      rewrite !List.filter_app, rev_app_distr, <- !app_assoc.
      assert (Hone : forall f : AsyncPartition -> bool,
                 rev (List.filter f [partition]) = List.filter f [partition]).
      { intros f. simpl. destruct (f partition); reflexivity. }
      rewrite Hone. reflexivity.
    + rewrite Hst in Hmade'.
      change (partition :: rest) with ([partition] ++ rest).
      rewrite List.filter_app.
      exact (made_calls_and_yielded_trans _ _ _ _ _ _ _ Hmade Hmade').
Qed.

(** X9.  In the triage, a COMPLETED partition is yielded and not kept, and the
    slot of each of its jobs is released by the tracker, in the order of the
    jobs; nothing is aborted and nothing else changes. *)
Theorem completed_partition_is_yielded_and_released (partition : AsyncPartition)
    (current_running_partitions : list AsyncPartition) o :
  status (job_status (_collaborators o)) partition = COMPLETED ->
  exists o',
    triage_partition partition current_running_partitions o
    = (inr current_running_partitions, o')
    /\ made_calls_and_yielded o o'
         (map (fun job => CallRemoveJob (api_job_id job)) (jobs partition)) [partition]
    /\ job_status (_collaborators o') = job_status (_collaborators o)
    /\ calls_effect (map (fun job => CallRemoveJob (api_job_id job)) (jobs partition))
                    (_collaborators o) (_collaborators o').
Proof.
  intros Hstatus.
  destruct (triage_completed_partition partition current_running_partitions o Hstatus)
    as (o' & Hrun & Hmade & Hst).
  exists o'. split; [exact Hrun|]. split; [exact Hmade|]. split; [exact Hst|].
  pose proof (faithful_triage_partition partition current_running_partitions o) as Hlog.
  rewrite Hrun in Hlog.
  apply (faithful_log_calls _ _ _ Hlog).
  apply made_calls_and_yielded_fields in Hmade. tauto.
Qed.

Lemma triage_pass_of_live_partitions o :
  Forall (fun partition => is_exhausted (job_status (_collaborators o)) partition = false)
         (_running_partitions o) ->
  exists o',
    _process_running_partitions_and_yield_completed_ones o = (inr tt, o')
    /\ _running_partitions o'
       = rev (List.filter (is_retriable (job_status (_collaborators o))) (_running_partitions o))
         ++ List.filter (is_running (job_status (_collaborators o))) (_running_partitions o)
    /\ yielded o'
       = yielded o
         ++ List.filter (is_completed (job_status (_collaborators o))) (_running_partitions o)
    /\ _slice_iterator o' = _slice_iterator o
    /\ _has_started_a_job o' = _has_started_a_job o
    /\ _has_consumed_every_slice o' = _has_consumed_every_slice o
    /\ _non_breaking_exceptions o' = _non_breaking_exceptions o
    /\ job_status (_collaborators o') = job_status (_collaborators o).
Proof.
  intros Hlive.
  destruct (triage_live_partitions (_running_partitions o) [] o Hlive)
    as (cs & o1 & Hrun & Hmade & Hst).
  apply made_calls_and_yielded_fields in Hmade
    as (Hit & _ & _ & Hstarted & Hconsumed & Hrecorded & _ & Hyielded).
  eexists. split.
  - unfold _process_running_partitions_and_yield_completed_ones.
    unfold bind at 1. unfold get at 1. unfold bind at 1. rewrite Hrun.
    unfold modify. reflexivity.
  - simpl. repeat split; assumption.
Qed.

(** X10.  A triage pass over tracked partitions none of which is exhausted
    never raises: it yields the COMPLETED partitions in the order they were
    tracked, and tracks afterwards the partitions to retry (FAILED or
    TIMED_OUT below the attempt bound), in reverse order, followed by the
    RUNNING partitions in order.  The slice iterator, the flags and the
    recorded exceptions are untouched. *)
Theorem triage_pass_without_exhausted_partition o :
  let job_status := job_status (_collaborators o) in
  Forall (fun partition => is_exhausted job_status partition = false)
         (_running_partitions o) ->
  exists o',
    _process_running_partitions_and_yield_completed_ones o = (inr tt, o')
    /\ _running_partitions o'
       = rev (List.filter (is_retriable job_status) (_running_partitions o))
         ++ List.filter (is_running job_status) (_running_partitions o)
    /\ yielded o' = yielded o ++ List.filter (is_completed job_status) (_running_partitions o)
    /\ _slice_iterator o' = _slice_iterator o
    /\ _has_started_a_job o' = _has_started_a_job o
    /\ _has_consumed_every_slice o' = _has_consumed_every_slice o
    /\ _non_breaking_exceptions o' = _non_breaking_exceptions o.
Proof.
  intros st Hlive. subst st.
  destruct (triage_pass_of_live_partitions o Hlive)
    as (o' & Hrun & Hparts & Hyielded & Hit & Hstarted & Hconsumed & Hrecorded & _).
  exists o'. repeat split; assumption.
Qed.

(** X11.  When a tracked partition is exhausted (neither COMPLETED nor RUNNING,
    and at the attempt bound) and no partition tracked before it is, the
    triage pass raises the partition-failed error of that partition: the
    COMPLETED partitions before it have been yielded, the tracked list is left
    as it was, and nothing is yielded of what comes after. *)
Theorem triage_pass_stops_at_first_exhausted_partition
    (before after : list AsyncPartition) (partition : AsyncPartition) o :
  let job_status := job_status (_collaborators o) in
  _running_partitions o = before ++ partition :: after ->
  Forall (fun partition => is_exhausted job_status partition = false) before ->
  is_exhausted job_status partition = true ->
  exists o',
    _process_running_partitions_and_yield_completed_ones o
    = (inl (AirbyteTracedException
              (JobsNotCompleted (status_by_job_id job_status partition)) system_error), o')
    /\ _running_partitions o' = _running_partitions o
    /\ yielded o' = yielded o ++ List.filter (is_completed job_status) before.
Proof.
  intros st Htracked Hlive Hexhausted. subst st.
  assert (Hsplit : forall l1 l2 current (s : AsyncJobOrchestrator W),
             triage_partitions (l1 ++ l2) current s
             = (c <- triage_partitions l1 current ;; triage_partitions l2 c) s).
  { induction l1 as [|p l1 IH]; intros l2 current s; [reflexivity|].
    simpl. unfold bind at 1 2 3.
    destruct (triage_partition p current s) as [[e | c] s1]; [reflexivity|].
    rewrite IH. reflexivity. }
  destruct (triage_live_partitions before [] o Hlive) as (cs & o1 & Hrun & Hmade & Hst).
  unfold is_exhausted, is_completed, is_running in Hexhausted.
  rewrite <- Hst in Hexhausted.
  apply andb_true_iff in Hexhausted as [Hexhausted Hmax].
  apply andb_true_iff in Hexhausted as [Hnc Hnr].
  apply negb_true_iff, bool_decide_eq_false in Hnc.
  apply negb_true_iff, bool_decide_eq_false in Hnr.
  destruct (triage_exhausted_partition partition
              (rev (List.filter (is_retriable (job_status (_collaborators o))) before) ++ []
               ++ List.filter (is_running (job_status (_collaborators o))) before)
              o1 Hnc Hnr Hmax) as (groups & o' & Hrun' & _ & Hmade').
  apply made_calls_and_yielded_fields in Hmade
    as (_ & Hparts & _ & _ & _ & _ & _ & Hyielded).
  exists o'. split; [|split].
  - unfold _process_running_partitions_and_yield_completed_ones.
    unfold bind at 1. unfold get at 1. rewrite Htracked. unfold bind at 1.
    rewrite Hsplit. unfold bind at 1. rewrite Hrun.
    change (triage_partitions (partition :: after) ?c o1)
      with ((c' <- triage_partition partition c ;; triage_partitions after c') o1).
    unfold bind at 1. rewrite Hrun', Hst. reflexivity.
  - rewrite (only_calls_made_partitions _ _ _ Hmade'). exact Hparts.
  - rewrite (only_calls_made_yielded _ _ _ Hmade'). exact Hyielded.
Qed.
End TriagePass.

(** * Admission, status refresh and abort-all *)

Section Passes.
Context {W : Type} `{Collaborators W}.
Implicit Types (o : AsyncJobOrchestrator W).

(** X12.  An admission pass accounts for every slice but the one whose start
    failed.  When [_start_jobs] returns, the slices drawn from the iterator are
    those of the partitions added, in order (a slice refused for lack of a
    slot is back in the iterator).  When it raises, the error is never the
    limit condition, and either no slice was drawn (the error came from a
    retry), or the slices drawn before the failing one are tracked and the
    failing slice is neither tracked nor back in the iterator. *)
Theorem admission_pass_accounts_for_every_slice o :
  match _start_jobs o with
  | (inr _, o') =>
      exists admitted,
        _slice_iterator o = admitted ++ _slice_iterator o'
        /\ map stream_slice (_running_partitions o')
           = map stream_slice (_running_partitions o) ++ admitted
  | (inl e, o') =>
      e <> ConcurrentJobLimitReached
      /\ (keeps_slices o o'
          \/ exists admitted s rest,
               _slice_iterator o = admitted ++ s :: rest
               /\ _slice_iterator o' = rest
               /\ map stream_slice (_running_partitions o')
                  = map stream_slice (_running_partitions o) ++ admitted)
  end.
Proof.
  unfold _start_jobs, start_jobs_body. unfold bind at 1. unfold get at 1. simpl self.
  unfold bind at 1. unfold on_self at 1. simpl self.
  pose proof (leaves_slices_for_each (seq 0 (length (_running_partitions o)))
                _replace_failed_jobs leaves_slices_replace_failed_jobs o) as [Hit0 Hparts0].
  destruct (for_each (seq 0 (length (_running_partitions o))) _replace_failed_jobs o)
    as [[e|[]] o0]; simpl in Hit0, Hparts0; simpl.
  - destruct e; try (split; [discriminate | left; split; assumption]).
    exists []. simpl. rewrite app_nil_r. auto.
  - unfold bind at 1. unfold get at 1. simpl.
    match goal with |- context [admit_slices _ ?f0] =>
      pose proof (admit_slices_accounts_for_every_slice (_slice_iterator o0) f0 eq_refl) as Hadmit
    end.
    destruct (admit_slices (_slice_iterator o0) _) as [[e|[]] f'].
    + destruct Hadmit as (admitted & s & rest & Hall & Hit' & Hslice & Hleast & Hparts).
      simpl in Hparts.
      destruct e;
        try (split; [discriminate|]; right; exists admitted, s, rest;
             split; [congruence | split; [exact Hit' | congruence]]).
      rewrite Hleast, Hslice. exists admitted. simpl.
      split; [rewrite <- Hit0, Hall, Hit'; reflexivity | congruence].
    + destruct Hadmit as [Hit' Hparts]. simpl in Hparts.
      exists (_slice_iterator o0). rewrite Hit', app_nil_r.
      split; [congruence | congruence].
Qed.




End Passes.

(** * A run where every job completes *)

Section CompletingRun.
Implicit Types (o : AsyncJobOrchestrator Remote) (w : Remote).









End CompletingRun.

(** * Fetching the records of a partition *)

Section FetchRecords.
Context {W Mapping : Type} `{RecordRepository W Mapping}.

(** X16.  [fetch_records] goes through the jobs of the partition in order:
    the records the repository hands over for a job are yielded, then the
    repository deletes the job, then the next job is fetched.  When it ends
    normally every job has been fetched and deleted, once, right after its
    records.  When a fetch or a deletion raises, the jobs before the failing
    one have been fetched and deleted, the records the failing fetch had
    handed over have been yielded, the failing job and the jobs after it have
    not been deleted, and nothing of the jobs after it has been fetched. *)
Theorem fetch_records_deletes_each_job_after_its_records (partition : AsyncPartition)
    (w : W) :
  exists (done : list (AsyncJob * list Mapping)) (last_records : list Mapping) (w_done : W),
    fetched_through done w w_done
    /\ fst (fst (fetch_records partition w))
       = flat_map fetched_and_deleted done ++ map Fetched last_records
    /\ match snd (fst (fetch_records partition w)) with
       | inr _ =>
           map fst done = jobs partition /\ last_records = []
           /\ snd (fetch_records partition w) = w_done
       | inl e =>
           exists job rest,
             jobs partition = map fst done ++ job :: rest
             /\ (repository_fetch_records job w_done
                 = (last_records, inl e, snd (fetch_records partition w))
                 \/ exists w1,
                      repository_fetch_records job w_done = (last_records, inr tt, w1)
                      /\ repository_delete job w1
                         = (inl e, snd (fetch_records partition w)))
       end.
Proof.
  unfold fetch_records. generalize (jobs partition) as job_list. intros job_list.
  revert w. induction job_list as [|job rest IH]; intros w.
  - exists [], [], w. simpl. auto.
  - simpl. destruct (repository_fetch_records job w) as [[records [e|[]]] w1] eqn:Hfetch.
    + exists [], records, w. simpl. split; [reflexivity|]. split; [reflexivity|].
      exists job, rest. split; [reflexivity|]. left. exact Hfetch.
    + destruct (repository_delete job w1) as [[e|[]] w2] eqn:Hdelete.
      * exists [], records, w. simpl. split; [reflexivity|]. split; [reflexivity|].
        exists job, rest. split; [reflexivity|]. right. exists w1. split; assumption.
      * destruct (IH w2) as (done & last_records & w_done & Hthrough & Hevents & Hresult).
        destruct (fetch_records_of_jobs rest w2) as [[events r] w'].
        simpl in Hevents, Hresult. subst events.
        exists ((job, records) :: done), last_records, w_done. split; [|split].
        -- simpl. exists w1, w2. auto.
        -- simpl.
           change (fetched_and_deleted (job, records))
             with (map Fetched records ++ [Deleted job]).
           rewrite <- !app_assoc. reflexivity.
        -- simpl. destruct r as [e|[]].
           ++ destruct Hresult as (job' & rest' & -> & Hfail).
              exists job', rest'. split; [reflexivity | exact Hfail].
           ++ destruct Hresult as (<- & -> & <-). auto.
Qed.
End FetchRecords.

(** * Sample runs of the triage and of a completing run *)

Lemma completed_partition_is_yielded_and_released_witness :
  let partition := mkPartition [(first_job, 1)] "s1" in
  let run := triage_partition partition [] (tracking COMPLETED partition) in
  fst run = inr []
  /\ yielded (snd run) = [partition]
  /\ calls (snd run) = [CallRemoveJob "job_"].
Proof.
  intros partition run. subst run.
  destruct (completed_partition_is_yielded_and_released
              partition [] (tracking COMPLETED partition)) as (o' & Hrun & Hmade & _).
  - reflexivity.
  - rewrite Hrun. simpl. rewrite Hmade. simpl. auto.
Defined.

Lemma triage_pass_without_exhausted_partition_witness :
  let partition := mkPartition [(first_job, 1)] "s1" in
  let run := _process_running_partitions_and_yield_completed_ones
               (tracking RUNNING partition) in
  fst run = inr tt
  /\ _running_partitions (snd run) = [partition]
  /\ yielded (snd run) = [].
Proof.
  intros partition run. subst run.
  destruct (triage_pass_without_exhausted_partition (tracking RUNNING partition))
    as (o' & Hrun & Hparts & Hyielded & _).
  - repeat constructor.
  - rewrite Hrun. simpl. rewrite Hparts, Hyielded. auto.
Defined.

Lemma triage_pass_stops_at_first_exhausted_partition_witness :
  let partition := mkPartition [(first_job, 3)] "s1" in
  let run := _process_running_partitions_and_yield_completed_ones
               (tracking FAILED partition) in
  fst run = inl (AirbyteTracedException (JobsNotCompleted [("job_", FAILED)]) system_error)
  /\ _running_partitions (snd run) = [partition].
Proof.
  intros partition run. subst run.
  destruct (triage_pass_stops_at_first_exhausted_partition [] [] partition
              (tracking FAILED partition)) as (o' & Hrun & Hparts & _).
  - reflexivity.
  - constructor.
  - reflexivity.
  - rewrite Hrun. simpl. rewrite Hparts. auto.
Defined.

